(** * Thumbnail generator: composition and export pipeline

    A shallow embedding of the text utilities ([wrapText],
    [wrapTextToWidth], [parseResolution], [inlineSvgImages]), of the token
    template processor ([replaceTokens], [wrapTopicText]), of the ellipsis
    truncation of the On .NET Live template ([ellipsizeToWidth]) and of
    the procedural layout of the blog template ([generateSvg]), with the
    properties the specification states about them.  Further parts of
    the code follow: [escapeXml], the template cache and the title lines
    of the template components, the logo selection of the form and the
    image layouts of the blog template, with properties read off the
    code.

    Conventions of the embedding.
    - A JavaScript string is the list of its UTF-16 code units ([str]);
      [lit] turns a Rocq string literal into one.
    - A JavaScript number that is a count or an index is a [nat] or a [Z];
      a coordinate is an exact rational ([Q]), where the code computes
      in doubles.  The statements on coordinates are chosen to hold of
      the doubles too: an equation is one the code computes as it
      stands, an inequality holds with room to spare, and what the
      exact computation meets with no room to spare is stated up to a
      rounding slack ([Properties.roundingSlack]).  The one place where
      the code converts text to a number ([Number] of a digit string)
      is embedded with its rounding to the nearest double.
    - A token name is followed where the regular expression built from
      it matches the marker as a text ([literalName]); an image is an
      element whose local name is [image], as the selector of
      [querySelectorAll] has it.
    - What the browser provides (text measurement, the XML parser and
      serializer, URL resolution, [fetch]) is an explicit argument. *)

From Stdlib Require Import Ascii String.
From Stdlib Require Import List Bool Arith ZArith NArith QArith Qminmax Qabs.
From Stdlib Require Import Lia Lqa.
Import ListNotations.
Close Scope Q_scope.
Local Open Scope list_scope.

(* ================================================================== *)
(** * Definitions *)
(* ================================================================== *)

(** ** JavaScript strings *)

Module JsString.

Definition codeunit := N.
Definition str := list codeunit.

Definition lit (s : string) : str :=
  map N_of_ascii (list_ascii_of_string s).

(** Named code units. *)
Definition SPACE : codeunit := 32%N.
Definition DOLLAR : codeunit := 36%N.
Definition AMP : codeunit := 38%N.
Definition QUOTE : codeunit := 39%N.
Definition BACKTICK : codeunit := 96%N.
(** U+2026, the horizontal ellipsis. *)
Definition ELLIPSIS : codeunit := 8230%N.

Fixpoint eqb (a b : str) : bool :=
  match a, b with
  | [], [] => true
  | x :: a', y :: b' => N.eqb x y && eqb a' b'
  | _, _ => false
  end.

(** [!s] for a string: only the empty string is falsy. *)
Definition isEmpty (s : str) : bool :=
  match s with [] => true | _ :: _ => false end.

Definition nonEmpty (s : str) : bool := negb (isEmpty s).

(** The code units matched by the regular expression class [\s] and
    stripped by [trim]: WhiteSpace and LineTerminator of ECMAScript. *)
Definition isWhiteSpace (c : codeunit) : bool :=
  ((9 <=? c) && (c <=? 13) || (c =? 32) || (c =? 160) || (c =? 5760)
   || ((8192 <=? c) && (c <=? 8202)) || (c =? 8232) || (c =? 8233)
   || (c =? 8239) || (c =? 8287) || (c =? 12288) || (c =? 65279))%N.

Definition isDigit (c : codeunit) : bool := ((48 <=? c) && (c <=? 57))%N.

Fixpoint trimStart (s : str) : str :=
  match s with
  | [] => []
  | c :: r => if isWhiteSpace c then trimStart r else s
  end.

Fixpoint trimEnd (s : str) : str :=
  match s with
  | [] => []
  | c :: r =>
      match trimEnd r with
      | [] => if isWhiteSpace c then [] else [c]
      | r' => c :: r'
      end
  end.

Definition trim (s : str) : str := trimEnd (trimStart s).

Fixpoint startsWith (p s : str) : bool :=
  match p, s with
  | [], _ => true
  | x :: p', y :: s' => N.eqb x y && startsWith p' s'
  | _ :: _, [] => false
  end.

(** [s.slice(0, k)] *)
Definition slice0 (s : str) (k : nat) : str := firstn k s.

(** [lines.join(sep)] *)
Fixpoint join (sep : str) (l : list str) : str :=
  match l with
  | [] => []
  | [x] => x
  | x :: r => x ++ sep ++ join sep r
  end.

(** [s.split(c)] for a one-code-unit separator: every occurrence of the
    separator cuts, so consecutive separators give empty pieces. *)
Fixpoint splitChar (c : codeunit) (s : str) : list str :=
  match s with
  | [] => [[]]
  | x :: r =>
      if N.eqb x c then [] :: splitChar c r
      else match splitChar c r with
           | w :: ws => (x :: w) :: ws
           | [] => [[x]]
           end
  end.

(** [s.split(/\s+/)]: a maximal run of white space is one separator;
    [inSep] tells that the previous code unit belonged to a run. *)
Fixpoint splitWsFrom (inSep : bool) (s : str) : list str :=
  match s with
  | [] => [[]]
  | x :: r =>
      if isWhiteSpace x then
        if inSep then splitWsFrom true r else [] :: splitWsFrom true r
      else match splitWsFrom false r with
           | w :: ws => (x :: w) :: ws
           | [] => [[x]]
           end
  end.

Definition splitWs (s : str) : list str := splitWsFrom false s.

(** [s.toLowerCase()] on the letters A-Z; no other code unit lowercases
    to an ASCII letter, which is all the comparison with a lowercase ASCII
    name needs. *)
Definition toLowerCase (s : str) : str :=
  map (fun c => if ((65 <=? c) && (c <=? 90))%N then (c + 32)%N else c) s.

(** [s.indexOf(x)] on an array of strings, [length] when absent (the code
    only looks up a member). *)
Fixpoint indexOf (x : str) (l : list str) : nat :=
  match l with
  | [] => 0
  | y :: r => if eqb y x then 0 else S (indexOf x r)
  end.

End JsString.

(** ** JavaScript values that reach the embedded functions *)

Module JsValue.
Import JsString.

Inductive value :=
| VUndefined
| VNull
| VBool (b : bool)
| VNum (z : Z)
| VStr (s : str).

(** ToBoolean *)
Definition truthy (v : value) : bool :=
  match v with
  | VUndefined | VNull => false
  | VBool b => b
  | VNum z => negb (Z.eqb z 0)
  | VStr s => nonEmpty s
  end.


Definition digitOfNat (d : nat) : codeunit := (48 + N.of_nat d)%N.

(** Decimal digits of a natural number, most significant first. *)
Fixpoint digitsFuel (fuel n : nat) (acc : str) : str :=
  match fuel with
  | O => acc
  | S f =>
      let acc' := digitOfNat (n mod 10)%nat :: acc in
      if (n / 10 =? 0)%nat then acc' else digitsFuel f (n / 10)%nat acc'
  end.

Definition natToString (n : nat) : str := digitsFuel (S n) n [].

(** ToString *)
Definition toString (v : value) : str :=
  match v with
  | VUndefined => lit "undefined"
  | VNull => lit "null"
  | VBool true => lit "true"
  | VBool false => lit "false"
  | VNum z =>
      if (z <? 0)%Z then 45%N :: natToString (Z.to_nat (- z))
      else natToString (Z.to_nat z)
  | VStr s => s
  end.

(** [value || ''] *)
Definition orEmpty (v : value) : value :=
  if truthy v then v else VStr [].

End JsValue.

(** ** Text measurement

    [ctx.measureText(s).width] after [ctx.font = font].  A font string of
    the code is [`${weight} ${size}px ${family}`]; the family is the same
    everywhere, so a font is its weight and its size in pixels. *)

Module Metrics.
Import JsString.

Record Font := mkFont { fontWeight : N; fontSize : Q }.

(** A 2d canvas context, as far as the code uses it. *)
Definition Ctx := Font -> str -> Q.

(** The width the code assumes when no context exists:
    [length * fontSize * 0.6]. *)
Definition heuristicWidth (f : Font) (s : str) : Q :=
  (inject_Z (Z.of_nat (length s)) * fontSize f * (6 # 10))%Q.

End Metrics.

(** ** svgUtils: wrapping and resolution parsing *)

Module SvgUtils.
Import JsString JsValue Metrics.

(** State of the wrapping loops: the committed lines and the line being
    filled. *)
Definition WrapState := (list str * str)%type.

Definition pushLine (lines : list str) (currentLine : str) : list str :=
  if nonEmpty currentLine then lines ++ [currentLine] else lines.

(** Body of the [forEach] of [wrapText]. *)
Definition wrapTextStep (maxChars : Z) (st : WrapState) (word : str)
  : WrapState :=
  let '(lines, currentLine) := st in
  let candidate := trim (currentLine ++ SPACE :: word) in
  if (Z.of_nat (length candidate) <=? maxChars)%Z
  then (lines, candidate)
  else (pushLine lines currentLine, word).

Definition wrapText (text : str) (maxChars : Z) : list str :=
  if isEmpty text then []
  else
    let '(lines, currentLine) :=
      fold_left (wrapTextStep maxChars) (splitChar SPACE text) ([], []) in
    pushLine lines currentLine.

(** Body of the [for ... of] of [wrapTextToWidth]; [measure] is the
    context with its font set. *)
Definition wrapWidthStep (measure : str -> Q) (maxWidth : Q)
  (st : WrapState) (word : str) : WrapState :=
  let '(lines, current) := st in
  let next := if nonEmpty current then current ++ SPACE :: word else word in
  if Qle_bool (measure next) maxWidth
  then (lines, next)
  else (pushLine lines current, word).

(** [font] is [None] for a missing or empty font string; a rational
    [maxWidth] is always finite. *)
Definition wrapTextToWidth (text : str) (maxWidth : Q)
  (ctx : option Ctx) (font : option Font) : list str :=
  if isEmpty text then []
  else
    match ctx, font with
    | Some c, Some f =>
        if Qle_bool maxWidth 0 then wrapText text 22
        else
          let words := filter nonEmpty (splitWs text) in
          let '(lines, current) :=
            fold_left (wrapWidthStep (c f) maxWidth) words ([], []) in
          pushLine lines current
    | _, _ => wrapText text 22
    end.

(** *** [parseResolution] *)

(** The longest prefix of code units satisfying [p], and the rest. *)
Fixpoint span (p : codeunit -> bool) (s : str) : str * str :=
  match s with
  | [] => ([], [])
  | c :: r =>
      if p c then let '(a, b) := span p r in (c :: a, b) else ([], s)
  end.

(** [x] under the [i] flag. *)
Definition isX (c : codeunit) : bool := ((c =? 120) || (c =? 88))%N.

(** [s.match(/^(\d+)\s*x\s*(\d+)$/i)]: the two captured groups.  Every
    quantifier of the expression is followed by a class disjoint from its
    own, so the greedy reading is the only possible match. *)
Definition matchResolution (s : str) : option (str * str) :=
  let '(d1, r1) := span isDigit s in
  if isEmpty d1 then None
  else
    match trimStart r1 with
    | c :: r2 =>
        if isX c then
          let '(d2, r3) := span isDigit (trimStart r2) in
          if isEmpty d2 then None
          else if isEmpty r3 then Some (d1, d2) else None
        else None
    | [] => None
    end.

(** The mathematical value of a string of decimal digits. *)
Definition decimalValue (ds : str) : N :=
  fold_left (fun acc c => (10 * acc + (c - 48))%N) ds 0%N.

(** The Number value of a natural number: itself when it has at most 53
    significant bits, otherwise rounded to 53 bits, ties to even; [None]
    is [Infinity]. *)
Definition roundToDouble (n : N) : option N :=
  let bits := N.size n in
  if (bits <=? 53)%N then Some n
  else
    let sh := (bits - 53)%N in
    let q := N.shiftr n sh in
    let r := N.land n (N.ones sh) in
    let half := N.shiftl 1 (sh - 1) in
    let q' := if (half <? r)%N || ((r =? half)%N && N.odd q)
              then (q + 1)%N else q in
    let v := N.shiftl q' sh in
    if (2 ^ 1024 <=? v)%N then None else Some v.

(** [Number(match[i])] on a captured digit string. *)
Definition NumberOfDigits (ds : str) : option N :=
  roundToDouble (decimalValue ds).

Definition fallbackResolution : N * N := (1920%N, 1080%N).

Definition parseResolution (resolution : value) : N * N :=
  match resolution with
  | VStr s =>
      match matchResolution (trim s) with
      | Some (d1, d2) =>
          match NumberOfDigits d1, NumberOfDigits d2 with
          | Some parsedWidth, Some parsedHeight =>
              if ((0 <? parsedWidth) && (0 <? parsedHeight))%N
              then (parsedWidth, parsedHeight)
              else fallbackResolution
          | _, _ => fallbackResolution
          end
      | None => fallbackResolution
      end
  | _ => fallbackResolution
  end.

End SvgUtils.

(** ** svgTemplateProcessor: token substitution and topic wrapping *)

Module SvgTemplateProcessor.
Import JsString JsValue.

(** GetSubstitution for a pattern without capture groups: [$$] is a
    dollar sign, [$&] the matched text, [$`] the text before the match,
    [$'] the text after it; a dollar sign followed by anything else
    (digits included, since there is no group to refer to) stands for
    itself. *)
Fixpoint getSubstitution (matched before after replacement : str) : str :=
  match replacement with
  | [] => []
  | c :: r =>
      if N.eqb c DOLLAR then
        match r with
        | d :: r' =>
            if N.eqb d DOLLAR then
              DOLLAR :: getSubstitution matched before after r'
            else if N.eqb d AMP then
              matched ++ getSubstitution matched before after r'
            else if N.eqb d BACKTICK then
              before ++ getSubstitution matched before after r'
            else if N.eqb d QUOTE then
              after ++ getSubstitution matched before after r'
            else c :: getSubstitution matched before after r
        | [] => [c]
        end
      else c :: getSubstitution matched before after r
  end.

(** [whole.replace(new RegExp(pat, 'g'), rep)] for a pattern that is a
    non-empty literal text: the scan is at position [pos] of [whole], [s]
    is what is left to read and [skip] counts the code units of the
    current match still to pass over.  Matches are found left to right
    and what a match inserts is never read again by the scan. *)
Fixpoint replaceScan (pat rep whole : str) (pos skip : nat) (s : str) : str :=
  match s with
  | [] => []
  | c :: r =>
      match skip with
      | S k => replaceScan pat rep whole (S pos) k r
      | O =>
          if startsWith pat s then
            getSubstitution pat (firstn pos whole)
              (skipn (pos + length pat)%nat whole) rep
            ++ replaceScan pat rep whole (S pos) (length pat - 1)%nat r
          else c :: replaceScan pat rep whole (S pos) 0 r
      end
  end.

Definition replaceGlobal (pat rep s : str) : str :=
  replaceScan pat rep s 0 0 s.









(** The loop of [wrapTopicText]; [all] is the whole array of words, which
    [words.indexOf(word)] searches from its start.  The result is the
    pair of [lines] and [currentLine] when the loop is left. *)
Fixpoint topicLoop (maxCharsPerLine maxLines : Z) (all words : list str)
  (lines : list str) (currentLine : str) : list str * str :=
  match words with
  | [] => (lines, currentLine)
  | word :: rest =>
      if (Z.of_nat (length currentLine) + Z.of_nat (length word) + 1
          <=? maxCharsPerLine)%Z
      then
        topicLoop maxCharsPerLine maxLines all rest lines
          (if nonEmpty currentLine then currentLine ++ SPACE :: word
           else word)
      else
        let lines1 :=
          if nonEmpty currentLine then lines ++ [currentLine] else lines in
        if (maxLines - 1 <=? Z.of_nat (length lines1))%Z then
          (lines1 ++ [join [SPACE] (skipn (indexOf word all) all)], word)
        else topicLoop maxCharsPerLine maxLines all rest lines1 word
  end.

Definition wrapTopicText (topic : str) (maxCharsPerLine maxLines : Z)
  : list str :=
  if isEmpty topic then [[]; []; []]
  else
    let words := splitChar SPACE topic in
    let '(lines, currentLine) :=
      topicLoop maxCharsPerLine maxLines words words [] [] in
    let lines1 :=
      if nonEmpty currentLine && (Z.of_nat (length lines) <? maxLines)%Z
      then lines ++ [currentLine] else lines in
    lines1 ++ repeat [] (Z.to_nat (maxLines - Z.of_nat (length lines1))).

(** The defaults of the two optional parameters. *)
Definition defaultMaxCharsPerLine : Z := 25.
Definition defaultMaxLines : Z := 3.

End SvgTemplateProcessor.

(** ** On .NET Live template: ellipsis truncation *)

Module OnDotNetLive.
Import JsString Metrics.

Definition titleFont : Font := mkFont 600 88.
Definition titleMaxWidth : Q := 924.

(** [trimmed.slice(0, k).trimEnd() + ellipsis] *)
Definition candidate (trimmed : str) (k : nat) : str :=
  trimEnd (slice0 trimmed k) ++ [ELLIPSIS].

(** The [while (low < high)] loop; [calls] counts the calls of
    [measureText].  [fuel] bounds the number of rounds; the result
    carries both ends of the interval, so that leaving the loop by its
    test can be told from running out of fuel. *)
Fixpoint search (measure : str -> Q) (maxWidth : Q) (trimmed : str)
  (fuel low high calls : nat) : nat * nat * nat :=
  match fuel with
  | O => (low, high, calls)
  | S fuel' =>
      if (low <? high)%nat then
        let mid := ((low + high + 1) / 2)%nat in
        if Qle_bool (measure (candidate trimmed mid)) maxWidth
        then search measure maxWidth trimmed fuel' mid high (S calls)
        else search measure maxWidth trimmed fuel' low (mid - 1)%nat (S calls)
      else (low, high, calls)
  end.

(** [ellipsizeToWidth] together with the number of measurements it
    made.  The interval shrinks in every round, so [length trimmed]
    rounds are enough. *)
Definition ellipsizeCounting (measureCtx : option Ctx) (text : str)
  (maxWidth : Q) : str * nat :=
  match measureCtx with
  | None => (text, 0)
  | Some ctx =>
      if isEmpty text || Qle_bool maxWidth 0 then (text, 0)
      else if Qle_bool (ctx titleFont text) maxWidth then (text, 1)
      else
        let trimmed := trim text in
        let '(low, _, calls) :=
          search (ctx titleFont) maxWidth trimmed
            (length trimmed) 0 (length trimmed) 1 in
        (candidate trimmed low, calls)
  end.

Definition ellipsizeToWidth (measureCtx : option Ctx) (text : str)
  (maxWidth : Q) : str :=
  fst (ellipsizeCounting measureCtx text maxWidth).

End OnDotNetLive.

(** ** svgUtils: inlining of external images *)

Module Inliner.
Import JsString.

(** The parsed document: elements with their attributes in document
    order, and character data. *)
#[warnings="-register-all"]
Inductive Node :=
| Element (tagName : str) (attributes : list (str * str))
    (childNodes : list Node)
| CharacterData (data : str).

Definition nodeName (n : Node) : str :=
  match n with
  | Element name _ _ => name
  | CharacterData _ => lit "#text"
  end.

Fixpoint getAttribute (name : str) (attrs : list (str * str)) : option str :=
  match attrs with
  | [] => None
  | (k, v) :: r => if eqb k name then Some v else getAttribute name r
  end.

(** An existing attribute keeps its place, a new one goes last. *)
Fixpoint setAttribute (name v : str) (attrs : list (str * str))
  : list (str * str) :=
  match attrs with
  | [] => [(name, v)]
  | (k, old) :: r =>
      if eqb k name then (k, v) :: r else (k, old) :: setAttribute name v r
  end.

(** [!el.getAttribute(name)] *)
Definition lacksAttribute (name : str) (attrs : list (str * str)) : bool :=
  match getAttribute name attrs with
  | Some v => isEmpty v
  | None => true
  end.

(** How one request ends: [fetch] rejects (network error, refused
    cross-origin request, or the abort that the ten-second timer sends),
    or it answers with a status, [ok] telling a success status, and with
    a body that [blobToDataUrl] turns into a data URL unless reading it
    fails. *)
Inductive FetchResult :=
| Rejected
| Responded (ok : bool) (dataUrl : option str).

(** What the browser provides.  An element is addressed by its path from
    the root (the positions of the children to follow), so that two
    requests for one URL may end differently. *)
Record Browser := mkBrowser {
  hasWindow : bool;
  parseFromString : str -> option Node;
  resolveURL : str -> option str;
  fetch : list nat -> str -> FetchResult;
  serializeToString : Node -> str
}.

(** [img.getAttribute('href') || img.getAttribute('xlink:href')] *)
Definition hrefOf (attrs : list (str * str)) : option str :=
  match getAttribute (lit "href") attrs with
  | Some h =>
      if nonEmpty h then Some h else getAttribute (lit "xlink:href") attrs
  | None => getAttribute (lit "xlink:href") attrs
  end.

(** The callback mapped over the images, on the attributes of the image
    at [path]. *)
Definition inlineImage (b : Browser) (path : list nat)
  (attrs : list (str * str)) : list (str * str) :=
  match hrefOf attrs with
  | None => attrs
  | Some href =>
      if isEmpty href || startsWith (lit "data:") href then attrs
      else
        match resolveURL b href with
        | None => attrs
        | Some absoluteUrl =>
            match fetch b path absoluteUrl with
            | Rejected => attrs
            | Responded false _ => attrs
            | Responded true None => attrs
            | Responded true (Some dataUrl) =>
                setAttribute (lit "xlink:href") dataUrl
                  (setAttribute (lit "href") dataUrl attrs)
            end
        end
  end.

(** The local name of an element: its name without the namespace
    prefix and the colon, if it has one. *)
Fixpoint afterColon (s : str) : option str :=
  match s with
  | [] => None
  | c :: r => if N.eqb c 58 then Some r else afterColon r
  end.

Definition localName (tagName : str) : str :=
  match afterColon tagName with
  | Some name => name
  | None => tagName
  end.

(** [querySelectorAll('image')] selects the elements whose local name is
    [image], in any namespace and under any prefix. *)
Definition isImage (tagName : str) : bool :=
  eqb (localName tagName) (lit "image").

(** The document after every callback has settled.  Each callback writes
    only to its own element, so the order in which they settle does not
    show; the embedding visits the elements in document order. *)
Fixpoint inlineNode (b : Browser) (path : list nat) (n : Node) : Node :=
  match n with
  | Element name attrs kids =>
      Element name
        (if isImage name then inlineImage b path attrs else attrs)
        ((fix onKids (i : nat) (ks : list Node) : list Node :=
            match ks with
            | [] => []
            | k :: ks' => inlineNode b (path ++ [i]) k :: onKids (S i) ks'
            end) 0 kids)
  | CharacterData d => CharacterData d
  end.

(** The children of the element at [path], from position [i] on. *)
Fixpoint inlineKids (b : Browser) (path : list nat) (i : nat)
  (ks : list Node) : list Node :=
  match ks with
  | [] => []
  | k :: ks' => inlineNode b (path ++ [i]) k :: inlineKids b path (S i) ks'
  end.

Definition ensureAttribute (name v : str) (attrs : list (str * str))
  : list (str * str) :=
  if lacksAttribute name attrs then setAttribute name v attrs else attrs.

Definition svgNamespace : str := lit "http://www.w3.org/2000/svg".
Definition xlinkNamespace : str := lit "http://www.w3.org/1999/xlink".

(** The root after the namespace attributes are ensured and the images
    below it (the root itself is not among its descendants) are
    processed. *)
Definition inlineRoot (b : Browser) (root : Node) : Node :=
  match root with
  | Element name attrs kids =>
      match inlineNode b [] (Element name attrs kids) with
      | Element _ _ kids' =>
          Element name
            (ensureAttribute (lit "xmlns:xlink") xlinkNamespace
               (ensureAttribute (lit "xmlns") svgNamespace attrs))
            kids'
      | other => other
      end
  | CharacterData d => CharacterData d
  end.

(** [parseFromString] gives [None] when the document has no root
    element. *)
Definition inlineSvgImages (b : Browser) (svgString : str) : str :=
  if negb (hasWindow b) || isEmpty svgString then svgString
  else
    match parseFromString b svgString with
    | None => svgString
    | Some svg =>
        if negb (eqb (toLowerCase (nodeName svg)) (lit "svg"))
        then svgString
        else serializeToString b (inlineRoot b svg)
    end.

(** The node reached from [n] by a path. *)
Fixpoint nodeAt (n : Node) (path : list nat) : option Node :=
  match path with
  | [] => Some n
  | i :: rest =>
      match n with
      | Element _ _ kids =>
          match nth_error kids i with
          | Some k => nodeAt k rest
          | None => None
          end
      | CharacterData _ => None
      end
  end.


End Inliner.

(** ** Procedural layout: the geometry computed by [generateSvg]

    The computation below is the one of [generateSvg] in the application
    component; the blog template carries the same lines, with the width
    and height coming from [parseResolution]. *)

Module BlogLayout.
Import JsString Metrics SvgUtils.

Local Open Scope Q_scope.

(** The form fields that reach the geometry; [logoCount] is
    [selectedLogos.length]. *)
Record Fields := mkFields {
  title : str;
  subtitle : str;
  pill : str;
  logoCount : nat
}.

(** [Math.SQRT2], the double nearest to the square root of two. *)
Definition SQRT2 : Q := 6369051672525773 # 4503599627370496.

Record Geometry := mkGeometry {
  scale : Q;
  edgeMarginX : Q;
  edgeMarginY : Q;
  pillHeight : Q;
  pillRadius : Q;
  pillFontSize : Q;
  pillX : Q;
  pillY : Q;
  pillPaddingX : Q;
  pillTextWidth : Q;
  pillWidth : Q;
  pillTextX : Q;
  pillTextY : Q;
  titleFontSize : Q;
  titleLineHeight : Q;
  titleX : Q;
  titleY : Q;
  subtitleFontSize : Q;
  subtitleLineHeight : Q;
  desiredLogoCenterX : Q;
  logoRightMargin : Q;
  logoEdgeMarginY : Q;
  logoGap : Q;
  logoCircleRadius : Q;
  logoSpacing : Q;
  logoStartY : Q;
  logoBaseX : Q;
  logoStaggerX : Q;
  textRightBoundary : Q;
  textMaxWidth : Q;
  titleLines : list str;
  subtitleLines : list str;
  subtitleY : Q;
  logoClipRadius : Q;
  logoSize : Q
}.

Definition ofNat (n : nat) : Q := inject_Z (Z.of_nat n).

(** The part of [generateSvg] that is evaluated when [logoCount > 1]:
    radius, spacing, first centre, horizontal anchor and stagger. *)
Definition logoStack (width height sc : Q) (count : nat)
  (desiredX rightMargin marginY gap : Q) : Q * Q * Q * Q * Q :=
  let maxStackHeight := Qmax 0 (height - 2 * marginY) in
  let fitRadius :=
    (maxStackHeight - (ofNat count - 1) * gap) / (2 * ofNat count) in
  let radius := Qmin (205 * sc) fitRadius in
  let spacing := radius * 2 + gap in
  let stackHeight := ofNat count * 2 * radius + (ofNat count - 1) * gap in
  let stackTop := Qmax marginY ((height - stackHeight) / 2) in
  let startY := stackTop + radius in
  let staggerX := if (count =? 3)%nat then radius * (55 # 100) else 0 in
  let baseX0 := desiredX - staggerX / 2 in
  let maxBaseX := width - rightMargin - radius - staggerX in
  (radius, spacing, startY, Qmin baseX0 maxBaseX, staggerX).

(** The computation of [generateSvg] up to its template literal, which
    prints the values gathered here; [ctx] is the measuring context, its
    absence the case of no [document]. *)
Definition generateSvg (ctx : option Ctx) (width height : Q) (f : Fields)
  : Geometry :=
  let sc := width / 1920 in
  let edgeX := 75 * sc in
  let edgeY := 132 * sc in
  let pillH := 126 * sc in
  let pillR := pillH / 2 in
  let pillFS := 88 * sc in
  let pillPadX := 44 * sc in
  let pillFont := mkFont 600 pillFS in
  let pillTW :=
    if nonEmpty (pill f) then
      match ctx with
      | Some c => c pillFont (pill f)
      | None => ofNat (length (pill f)) * pillFS * (6 # 10)
      end
    else 0 in
  let pillW := if nonEmpty (pill f) then pillTW + pillPadX * 2 else 0 in
  let titleFS := 133 * sc in
  let titleLH := titleFS * (11 # 10) in
  let tX := 73 * sc in
  let tY := 444 * sc in
  let subFS := 75 * sc in
  let subLH := subFS * (11 # 10) in
  let count := logoCount f in
  let desiredX := width - 376 * sc in
  let rightMargin := 55 * sc in
  let marginY := 55 * sc in
  let gap := (if (count =? 3)%nat then 18 else 24) * sc in
  let '(radius, spacing, startY, baseX, staggerX) :=
    if (1 <? count)%nat
    then logoStack width height sc count desiredX rightMargin marginY gap
    else (205 * sc, 0, height * (48 # 100), desiredX, 0) in
  let rightBoundary :=
    if (0 <? count)%nat then width / 2 else width - edgeX in
  let maxW := Qmax 0 (rightBoundary - tX) in
  let tLines :=
    wrapTextToWidth (title f) maxW ctx (Some (mkFont 700 titleFS)) in
  let sLines :=
    wrapTextToWidth (subtitle f) maxW ctx (Some (mkFont 700 subFS)) in
  let subY :=
    (height - edgeY) - Qmax 0 ((ofNat (length sLines) - 1) * subLH) in
  let clipR := radius * (9 # 10) in
  {| scale := sc;
     edgeMarginX := edgeX; edgeMarginY := edgeY;
     pillHeight := pillH; pillRadius := pillR; pillFontSize := pillFS;
     pillX := edgeX; pillY := edgeY; pillPaddingX := pillPadX;
     pillTextWidth := pillTW; pillWidth := pillW;
     pillTextX := edgeX + pillW / 2;
     pillTextY := edgeY + pillH / 2 + pillFS * (35 # 100);
     titleFontSize := titleFS; titleLineHeight := titleLH;
     titleX := tX; titleY := tY;
     subtitleFontSize := subFS; subtitleLineHeight := subLH;
     desiredLogoCenterX := desiredX;
     logoRightMargin := rightMargin; logoEdgeMarginY := marginY;
     logoGap := gap;
     logoCircleRadius := radius; logoSpacing := spacing;
     logoStartY := startY; logoBaseX := baseX; logoStaggerX := staggerX;
     textRightBoundary := rightBoundary; textMaxWidth := maxW;
     titleLines := tLines; subtitleLines := sLines; subtitleY := subY;
     logoClipRadius := clipR;
     logoSize := clipR * SQRT2 * (98 # 100) |}.

(** Centre of the circle of logo [i], as the [map] over the selected
    logos computes it. *)
Definition logoY (g : Geometry) (height : Q) (count i : nat) : Q :=
  if (1 <? count)%nat then logoStartY g + ofNat i * logoSpacing g
  else height * (48 # 100).

Definition logoX (g : Geometry) (count i : nat) : Q :=
  if (count =? 3)%nat && (i =? 1)%nat then logoBaseX g + logoStaggerX g
  else logoBaseX g.


(** The geometry at a resolution of whole pixels. *)
Definition generateSvgAt (ctx : option Ctx) (w h : Z) (f : Fields)
  : Geometry :=
  generateSvg ctx (inject_Z w) (inject_Z h) f.

End BlogLayout.

(** ** Notions used by the statements *)

Module Properties.
Import JsString JsValue Metrics SvgUtils SvgTemplateProcessor.
Import OnDotNetLive BlogLayout.

(** *** Text *)

(** [text.trim().replace(/\s+/g, ' ')]: the text with every run of
    white space turned into one space and none at its ends. *)
Fixpoint collapseWs (inWs : bool) (s : str) : str :=
  match s with
  | [] => []
  | c :: r =>
      if isWhiteSpace c then
        if inWs then collapseWs true r else SPACE :: collapseWs true r
      else c :: collapseWs false r
  end.

Definition normalizeWhitespace (s : str) : str := collapseWs false (trim s).

(** The only white space of the text is the space character. *)
Definition spacesOnly (s : str) : Prop :=
  forall c, In c s -> isWhiteSpace c = true -> c = SPACE.

(** The first code unit of [s], if any, is outside the class [p]. *)
Definition stopsAt (p : codeunit -> bool) (s : str) : Prop :=
  match s with
  | [] => True
  | c :: _ => p c = false
  end.

(** No code unit of the word is white space. *)
Definition wsFree (w : str) : Prop :=
  forall c, In c w -> isWhiteSpace c = false.

(** The line starts and ends with a code unit that is not white space. *)
Definition tidy (s : str) : Prop :=
  stopsAt isWhiteSpace s /\ trimEnd s = s.

(** A wrapping result reproduces the normalized text. *)
Definition keepsWords (lines : list str) (text : str) : Prop :=
  join [SPACE] lines = normalizeWhitespace text.


(** Words with a space in front of each: the text of a list of lines up
    to its first code unit. *)
Definition spaced (l : list str) : str :=
  flat_map (fun w => SPACE :: w) l.

(** The value has no dollar sign, so the replacement inserts it as it
    is. *)
Definition dollarFree (s : str) : Prop := ~ In DOLLAR s.


(** *** Token substitution, as the statement reads it *)

(** Where the first occurrence of [pat] in [s] starts. *)
Fixpoint firstOccurrence (pat s : str) : option nat :=
  if startsWith pat s then Some 0%nat
  else match s with
       | [] => None
       | _ :: r => option_map S (firstOccurrence pat r)
       end.

(** Global replacement, read as a rule: the first occurrence of [pat]
    in [s], the text at place [pos] of [whole], gives way to what the
    replacement stands for there, and the search goes on behind the
    occurrence, never inside what was put in.  [fuel] bounds the number
    of occurrences. *)
Fixpoint replaceEvery (fuel : nat) (pat rep whole : str) (pos : nat)
  (s : str) : str :=
  match fuel with
  | O => s
  | S fuel' =>
      match firstOccurrence pat s with
      | None => s
      | Some i =>
          firstn i s
          ++ getSubstitution pat (firstn (pos + i) whole)
               (skipn (pos + i + length pat) whole) rep
          ++ replaceEvery fuel' pat rep whole (pos + i + length pat)
               (skipn (i + length pat) s)
      end
  end.

Definition replaceAll (pat rep s : str) : str :=
  replaceEvery (length s) pat rep s 0 s.





Definition runPasses (passes : list (str * str)) (s : str) : str :=
  fold_left (fun result pass => replaceAll (fst pass) (snd pass) result)
    passes s.




(** *** Resolution strings *)


(** [s] is digits, white space, [x] or [X], white space, digits; [d1] and
    [d2] are the two digit strings. *)
Inductive resolutionText : str -> str -> str -> Prop :=
| resolutionText_intro (d1 ws1 : str) (x : codeunit) (ws2 d2 : str) :
    d1 <> [] -> d2 <> [] ->
    forallb isDigit d1 = true ->
    forallb isWhiteSpace ws1 = true ->
    isX x = true ->
    forallb isWhiteSpace ws2 = true ->
    forallb isDigit d2 = true ->
    resolutionText (d1 ++ ws1 ++ x :: ws2 ++ d2) d1 d2.

(** *** Ellipsis truncation *)

(** Extending a text never makes it narrower. *)
Definition monotoneWidth (measure : str -> Q) : Prop :=
  forall a b : str,
    (measure (a ++ [ELLIPSIS]) <= measure (a ++ b ++ [ELLIPSIS]))%Q.

Definition fits (measure : str -> Q) (maxWidth : Q) (s : str) : Prop :=
  (measure s <= maxWidth)%Q.

(** The candidate of length [k] is within the budget. *)
Definition candidateFits (measure : str -> Q) (maxWidth : Q) (trimmed : str)
  (k : nat) : Prop :=
  fits measure maxWidth (candidate trimmed k).

(** *** Layout *)

Local Open Scope Q_scope.



(** The radius that makes [count] circles and their gaps fill the span
    between the vertical margins. *)
Definition fitRadius (g : Geometry) (height : Q) (count : nat) : Q :=
  (Qmax 0 (height - 2 * logoEdgeMarginY g) - (ofNat count - 1) * logoGap g)
  / (2 * ofNat count).



(** The four parts of the statement on the logo circles. *)
Definition radiusBounded (g : Geometry) : Prop :=
  logoCircleRadius g <= 205 * scale g.

Definition noOverlap (g : Geometry) (height : Q) (count : nat) : Prop :=
  forall i, (S i < count)%nat ->
    logoY g height count i + logoCircleRadius g
    <= logoY g height count (S i) - logoCircleRadius g.

Definition withinVerticalMargins (g : Geometry) (height : Q) (count : nat)
  : Prop :=
  forall i, (i < count)%nat ->
    logoEdgeMarginY g <= logoY g height count i - logoCircleRadius g
    /\ logoY g height count i + logoCircleRadius g
       <= height - logoEdgeMarginY g.

Definition staggerInsideCanvas (g : Geometry) (width : Q) (count : nat)
  : Prop :=
  count = 3%nat ->
  logoX g count 1 + logoCircleRadius g <= width - logoRightMargin g.

(** The statement on the logo circles, at the geometry [g] of a canvas
    of [width] by [height] with [count] logos. *)
Definition logoCirclesFit (g : Geometry) (width height : Q) (count : nat)
  : Prop :=
  radiusBounded g
  /\ noOverlap g height count
  /\ withinVerticalMargins g height count
  /\ staggerInsideCanvas g width count.

(** The code computes in doubles, which carry 53 bits: each of its
    operations gives the exact result up to a part in [2^53].  One part
    in [2^40] of the size of the canvas bounds, with a wide margin, what
    the few operations of the geometry lose; the statements that the
    exact computation meets with no room to spare are made up to this
    slack. *)
Definition roundingSlack (width height : Q) : Q :=
  (Qabs width + Qabs height) / 1099511627776.

Definition upTo (slack a b : Q) : Prop := Qabs (a - b) <= slack.

(** The circles are within the vertical margins, up to [slack]. *)
Definition withinVerticalMarginsUpTo (slack : Q) (g : Geometry)
  (height : Q) (count : nat) : Prop :=
  forall i, (i < count)%nat ->
    logoEdgeMarginY g - slack <= logoY g height count i - logoCircleRadius g
    /\ logoY g height count i + logoCircleRadius g
       <= height - logoEdgeMarginY g + slack.

(** The canvas is tall enough for the circles: for a single circle of
    the reference radius around [0.48 * height], for a stack the two
    margins. *)
Definition tallEnough (g : Geometry) (height : Q) (count : nat) : Prop :=
  if (count =? 1)%nat
  then 260 * scale g <= (48 # 100) * height
  else 2 * logoEdgeMarginY g <= height.

(** The span between the margins holds the gaps of the stack. *)
Definition roomForGaps (g : Geometry) (height : Q) (count : nat) : Prop :=
  2 * logoEdgeMarginY g + (ofNat count - 1) * logoGap g <= height.

End Properties.

(** ** svgUtils: escaping of text for XML *)

Module Escaping.
Import JsString SvgTemplateProcessor.

Definition LT : codeunit := 60%N.
Definition GT : codeunit := 62%N.
Definition DQUOTE : codeunit := 34%N.

(** [escapeXml]: five global replacements, each reading the result of
    the one before; the ampersand goes first. *)
Definition escapeXml (text : str) : str :=
  if isEmpty text then []
  else
    replaceGlobal [QUOTE] (lit "&apos;")
      (replaceGlobal [DQUOTE] (lit "&quot;")
         (replaceGlobal [GT] (lit "&gt;")
            (replaceGlobal [LT] (lit "&lt;")
               (replaceGlobal [AMP] (lit "&amp;") text)))).

(** The entity that stands for one code unit, the code unit itself when
    it is none of the five. *)
Definition escapeChar (c : codeunit) : str :=
  if N.eqb c AMP then lit "&amp;"
  else if N.eqb c LT then lit "&lt;"
  else if N.eqb c GT then lit "&gt;"
  else if N.eqb c DQUOTE then lit "&quot;"
  else if N.eqb c QUOTE then lit "&apos;"
  else [c].

(** What follows the ampersand in the five entities. *)
Definition entityNames : list str :=
  [lit "amp;"; lit "lt;"; lit "gt;"; lit "quot;"; lit "apos;"].

(** The text can stand between tags and inside a quoted attribute: it
    has no angle bracket and no quote, and each of its ampersands begins
    one of the five entities. *)
Definition markupFree (s : str) : Prop :=
  (forall c, In c s -> c <> LT /\ c <> GT /\ c <> DQUOTE /\ c <> QUOTE)
  /\ (forall a b, s = a ++ AMP :: b ->
        exists e, In e entityNames /\ startsWith e b = true).

End Escaping.

(** ** Notions used by the statements on lines *)

Module LineProperties.
Import JsString Metrics Properties.

(** A line of the character-budget mode is acceptable: it is not empty,
    and it is within the budget unless it is a single word. *)
Definition withinChars (maxChars : Z) (line : str) : Prop :=
  line <> []
  /\ ((Z.of_nat (length line) <= maxChars)%Z \/ ~ In SPACE line).

(** A line of [wrapTopicText] is acceptable: within the budget, or a
    single word. *)
Definition fitsOrWord (maxChars : Z) (line : str) : Prop :=
  (Z.of_nat (length line) <= maxChars)%Z \/ ~ In SPACE line.

(** The same for the width-budget mode. *)
Definition withinWidth (measure : str -> Q) (maxWidth : Q) (line : str)
  : Prop :=
  line <> [] /\ (fits measure maxWidth line \/ wsFree line).

(** The line [next] begins with a word that did not fit behind
    [line]. *)
Definition breakForced (measure : str -> Q) (maxWidth : Q)
  (line next : str) : Prop :=
  exists word rest,
    next = word ++ rest /\ word <> [] /\ wsFree word
    /\ (rest = [] \/ exists r, rest = SPACE :: r)
    /\ ~ fits measure maxWidth (line ++ SPACE :: word).

(** [R] holds between every line and the one after it. *)
Fixpoint adjacent (R : str -> str -> Prop) (l : list str) : Prop :=
  match l with
  | [] => True
  | a :: t =>
      match t with
      | [] => True
      | b :: _ => R a b /\ adjacent R t
      end
  end.

End LineProperties.

(** ** Notions used by the statements on inlining *)

Module InlinerProperties.
Import JsString Inliner.

Definition attributesOf (n : Node) : list (str * str) :=
  match n with
  | Element _ attrs _ => attrs
  | CharacterData _ => []
  end.

(** The image needs no request: it has no reference, or its reference
    is a data URL already. *)
Definition embedded (attrs : list (str * str)) : bool :=
  match hrefOf attrs with
  | None => true
  | Some href => isEmpty href || startsWith (lit "data:") href
  end.

(** Every image of the tree (every element whose local name is
    [image], whatever its prefix) is embedded. *)
Fixpoint selfContained (n : Node) : bool :=
  match n with
  | Element name attrs kids =>
      (if isImage name then embedded attrs else true)
      && forallb selfContained kids
  | CharacterData _ => true
  end.

End InlinerProperties.

(** ** Notions used by the statements on the text column and the logos *)

Module LayoutProperties.
Import JsString Metrics SvgUtils BlogLayout Properties.

Local Open Scope Q_scope.



(** The baseline of the last line of the subtitle: each [tspan] after
    the first moves down by the line height. *)
Definition lastSubtitleBaseline (g : Geometry) : Q :=
  subtitleY g
  + (ofNat (length (subtitleLines g)) - 1) * subtitleLineHeight g.

(** The space above the first circle and the space below the last. *)
Definition spaceAbove (g : Geometry) (height : Q) (count : nat) : Q :=
  logoY g height count 0 - logoCircleRadius g.

Definition spaceBelow (g : Geometry) (height : Q) (count : nat) : Q :=
  height - (logoY g height count (count - 1) + logoCircleRadius g).

(** The two are the same, up to [slack]. *)
Definition stackCentred (slack : Q) (g : Geometry) (height : Q)
  (count : nat) : Prop :=
  upTo slack (spaceAbove g height count) (spaceBelow g height count).

(** The corners of the square image, at [logoSize / 2] on both axes
    from the centre, are inside the clip circle. *)
Definition squareInsideClip (g : Geometry) : Prop :=
  2 * ((logoSize g / 2) * (logoSize g / 2))
  <= logoClipRadius g * logoClipRadius g.

End LayoutProperties.

(** ** On .NET Live template: the three title lines *)

Module OnDotNetLiveTitle.
Import JsString Metrics SvgUtils OnDotNetLive.

(** [wrappedTitleLines] of [generateSvg], for a title that is a
    string. *)
Definition wrappedTitleLines (measureCtx : option Ctx) (title : str)
  : list str :=
  wrapTextToWidth (trim title) titleMaxWidth measureCtx (Some titleFont).

(** [titleLine3Raw]: what is left after the first two lines. *)
Definition titleLine3Raw (measureCtx : option Ctx) (title : str) : str :=
  if (2 <? length (wrappedTitleLines measureCtx title))%nat
  then join [SPACE] (skipn 2 (wrappedTitleLines measureCtx title))
  else [].

(** [titleLine1], [titleLine2] and [titleLine3]. *)
Definition titleLines (measureCtx : option Ctx) (title : str)
  : str * str * str :=
  let titleLine1 := nth 0 (wrappedTitleLines measureCtx title) [] in
  let titleLine2 := nth 1 (wrappedTitleLines measureCtx title) [] in
  let titleLine3 :=
    if nonEmpty (titleLine3Raw measureCtx title)
    then ellipsizeToWidth measureCtx (titleLine3Raw measureCtx title)
           titleMaxWidth
    else [] in
  (titleLine1, titleLine2, titleLine3).

End OnDotNetLiveTitle.

(** ** Template cache of the template components

    [templateCache] of the Community Standup and of the On .NET Live
    template: the two objects differ in their table of paths only. *)

Module TemplateCache.
Import JsString.

(** [TEMPLATE_PATHS[guestCount] || TEMPLATE_PATHS[3]] of the Community
    Standup template. *)
Definition communityStandupPath (guestCount : Z) : str :=
  if (guestCount =? 2)%Z then
    lit "/thumbnail-generator/templates/dotnet-community-standup/two-guests.svg"
  else if (guestCount =? 4)%Z then
    lit "/thumbnail-generator/templates/dotnet-community-standup/four-guests.svg"
  else
    lit "/thumbnail-generator/templates/dotnet-community-standup/three-guests.svg".

(** [TEMPLATE_PATHS[guestCount] || TEMPLATE_PATHS[1]] of the On .NET
    Live template. *)
Definition onDotNetLivePath (guestCount : Z) : str :=
  if (guestCount =? 2)%Z then
    lit "/thumbnail-generator/templates/on-dotnet-live/on-dotnet-thumbnai-two-guests.svg"
  else
    lit "/thumbnail-generator/templates/on-dotnet-live/on-dotnet-thumbnai-one-guest.svg".

(** The object with its two tables, and the requests that [load] has
    sent and whose promise has not settled yet, each with the guest
    count its callbacks close over. *)
Record Cache := mkCache {
  templates : Z -> option str;
  loading : Z -> bool;
  inFlight : list (Z * str)
}.

Definition empty : Cache :=
  {| templates := fun _ => None; loading := fun _ => false; inFlight := [] |}.

Definition update {A : Type} (f : Z -> A) (k : Z) (v : A) : Z -> A :=
  fun j => if (j =? k)%Z then v else f j.

(** [templateCache.get]: an empty content counts as absent. *)
Definition get (c : Cache) (guestCount : Z) : option str :=
  match templates c guestCount with
  | Some content => if nonEmpty content then Some content else None
  | None => None
  end.

Definition isSome {A : Type} (o : option A) : bool :=
  match o with Some _ => true | None => false end.

(** [templateCache.load] up to the call of [fetch]. *)
Definition load (pathOf : Z -> str) (c : Cache) (guestCount : Z) : Cache :=
  if isSome (get c guestCount) || loading c guestCount then c
  else
    {| templates := templates c;
       loading := update (loading c) guestCount true;
       inFlight := (guestCount, pathOf guestCount) :: inFlight c |}.

Fixpoint removeFirst (k : Z) (l : list (Z * str)) : list (Z * str) :=
  match l with
  | [] => []
  | (j, p) :: r => if (j =? k)%Z then r else (j, p) :: removeFirst k r
  end.

Fixpoint pending (k : Z) (l : list (Z * str)) : nat :=
  match l with
  | [] => 0
  | (j, _) :: r => (if (j =? k)%Z then 1 else 0) + pending k r
  end.

(** What can happen to the cache: a call of [load], and the two ways a
    request in flight settles, its text arriving or the chain ending in
    the [catch] (network error, status that is not a success, unreadable
    body). *)
Inductive Event :=
| Load (guestCount : Z)
| Resolved (guestCount : Z) (content : str)
| Failed (guestCount : Z).

Definition step (pathOf : Z -> str) (c : Cache) (e : Event) : Cache :=
  match e with
  | Load k => load pathOf c k
  | Resolved k content =>
      if (0 <? pending k (inFlight c))%nat then
        {| templates := update (templates c) k (Some content);
           loading := update (loading c) k false;
           inFlight := removeFirst k (inFlight c) |}
      else c
  | Failed k =>
      if (0 <? pending k (inFlight c))%nat then
        {| templates := templates c;
           loading := update (loading c) k false;
           inFlight := removeFirst k (inFlight c) |}
      else c
  end.

Definition run (pathOf : Z -> str) (c : Cache) (events : list Event)
  : Cache :=
  fold_left (step pathOf) events c.

(** What holds of the cache at every moment: a guest count has a
    request in flight exactly when its [loading] flag is set, then just
    one, sent to its own path; and a loaded template has none. *)
Definition consistent (pathOf : Z -> str) (c : Cache) : Prop :=
  (forall k, pending k (inFlight c) = if loading c k then 1%nat else 0%nat)
  /\ (forall k, isSome (get c k) = true -> loading c k = false)
  /\ (forall k p, In (k, p) (inFlight c) -> p = pathOf k).

End TemplateCache.

(** ** Logo selection of the form *)

Module LogoSelection.
Import JsString.

Record Logo := mkLogo {
  id : str;
  name : str;
  url : str;
  isUploaded : bool
}.

(** [value.some(l => l.id === logo.id)] *)
Definition isSelected (value : list Logo) (logo : Logo) : bool :=
  existsb (fun l => eqb (id l) (id logo)) value.

(** [value.filter(l => l.id !== logoId)] *)
Definition removeLogo (value : list Logo) (logoId : str) : list Logo :=
  filter (fun l => negb (eqb (id l) logoId)) value.

(** The new selection after [toggleLogo]; at the limit the selection
    stays and a notice is shown. *)
Definition toggleLogo (maxItems : nat) (value : list Logo) (logo : Logo)
  : list Logo :=
  if isSelected value logo then removeLogo value (id logo)
  else if (maxItems <=? length value)%nat then value
  else value ++ [logo].

Inductive Action :=
| Toggle (logo : Logo)
| Remove (logoId : str).

Definition act (maxItems : nat) (value : list Logo) (a : Action)
  : list Logo :=
  match a with
  | Toggle logo => toggleLogo maxItems value logo
  | Remove logoId => removeLogo value logoId
  end.

End LogoSelection.

(** ** .NET Blog template: text boundary and image layouts

    The template computes the geometry of [generateSvg] above at the
    parsed resolution; what it adds is the layout image, which also
    bounds the text. *)

Module DotNetBlogTemplate.
Import JsString.

Local Open Scope Q_scope.


(** [layoutImage] is an object or [null]: only its presence matters
    here. *)
Definition hasRightSideContent (logoCount : nat) (imageLayout : str)
  (layoutImage : bool) : bool :=
  (0 <? logoCount)%nat || (negb (eqb imageLayout (lit "none")) && layoutImage).

Definition textRightBoundary (width : Q) (logoCount : nat)
  (imageLayout : str) (layoutImage : bool) : Q :=
  if hasRightSideContent logoCount imageLayout layoutImage
  then width / 2 else width - 75 * (width / 1920).

Definition textMaxWidth (width : Q) (logoCount : nat) (imageLayout : str)
  (layoutImage : bool) : Q :=
  Qmax 0 (textRightBoundary width logoCount imageLayout layoutImage
          - 73 * (width / 1920)).





End DotNetBlogTemplate.

(** ** Further sample inputs *)

Module MoreSamples.
Import JsString Inliner.

(** A document that needs no request, and a browser that parses every
    text to it and would answer every request. *)
Definition embeddedDocument : Node :=
  Element (lit "svg")
    [ (lit "xmlns", svgNamespace); (lit "xmlns:xlink", xlinkNamespace) ]
    [ Element (lit "image") [(lit "href", lit "data:image/png;base64,AA==")] [];
      Element (lit "text") [] [CharacterData (lit "Title")] ].

Definition eagerBrowser : Browser :=
  {| hasWindow := true;
     parseFromString := fun _ => Some embeddedDocument;
     resolveURL := fun h => Some h;
     fetch := fun _ _ => Responded true (Some (lit "data:,"));
     serializeToString := fun _ => lit "<svg/>" |}.

End MoreSamples.

(** ** Sample inputs *)

Module Samples.
Import JsString JsValue Metrics Inliner BlogLayout.

(** A document with two images, and a browser that rejects every request
    but the one of the second image, which it answers with a data URL. *)
Definition sampleDocument : Node :=
  Element (lit "svg") []
    [ Element (lit "image") [(lit "href", lit "a.png")] [];
      Element (lit "image") [(lit "href", lit "b.png")] [] ].

Definition sampleBrowser : Browser :=
  {| hasWindow := true;
     parseFromString := fun _ => Some sampleDocument;
     resolveURL := fun h => Some (lit "http://x/" ++ h);
     fetch := fun path _ =>
       match path with
       | [1] => Responded true (Some (lit "data:image/png;base64,AA=="))
       | _ => Rejected
       end;
     serializeToString := fun _ => lit "<svg/>" |}.

(** A browser whose parser answers every text with an error document. *)
Definition errorBrowser : Browser :=
  {| hasWindow := true;
     parseFromString := fun _ => Some (Element (lit "parsererror") [] []);
     resolveURL := fun h => Some h;
     fetch := fun _ _ => Rejected;
     serializeToString := fun _ => lit "<parsererror/>" |}.

End Samples.

(* ================================================================== *)
(** * Theorems *)
(* ================================================================== *)

(** ** Strings *)

Module StringFacts.
Import JsString Properties.

Lemma eqb_refl (a : str) : eqb a a = true.
Proof.
  induction a as [|x a IH]; simpl; [reflexivity|].
  now rewrite N.eqb_refl, IH.
Qed.

Lemma eqb_eq (a b : str) : eqb a b = true <-> a = b.
Proof.
  split.
  - revert b; induction a as [|x a IH]; intros [|y b] H; simpl in H;
      try discriminate; [reflexivity|].
    apply andb_true_iff in H as [Hx Hr].
    apply N.eqb_eq in Hx. apply IH in Hr. now subst.
  - intros ->. apply eqb_refl.
Qed.



Lemma isEmpty_true (s : str) : isEmpty s = true <-> s = [].
Proof. destruct s; cbv; split; intros; congruence. Qed.

Lemma nonEmpty_true (s : str) : nonEmpty s = true <-> s <> [].
Proof. destruct s; cbv; split; intros; congruence. Qed.

Lemma nonEmpty_false (s : str) : nonEmpty s = false <-> s = [].
Proof. destruct s; cbv; split; intros; congruence. Qed.

Lemma spaced_app (l1 l2 : list str) :
  spaced (l1 ++ l2) = spaced l1 ++ spaced l2.
Proof. unfold spaced. now rewrite flat_map_app. Qed.

Lemma join_spaced (l : list str) : join [SPACE] l = tl (spaced l).
Proof.
  induction l as [|x l IH]; [reflexivity|].
  destruct l as [|y l].
  - simpl. now rewrite app_nil_r.
  - change (join [SPACE] (x :: y :: l))
      with (x ++ [SPACE] ++ join [SPACE] (y :: l)).
    rewrite IH. reflexivity.
Qed.

End StringFacts.

(** ** Token substitution *)

Module TemplateFacts.
Import JsString JsValue SvgTemplateProcessor Properties StringFacts.

Lemma getSubstitution_dollarFree (m b a rep : str) :
  dollarFree rep -> getSubstitution m b a rep = rep.
Proof.
  unfold dollarFree.
  induction rep as [|c r IH]; intros H; [reflexivity|].
  simpl. destruct (N.eqb_spec c DOLLAR) as [->|_].
  - exfalso. apply H. now left.
  - f_equal. apply IH. intros Hin. apply H. now right.
Qed.










Lemma toString_orEmpty_str (v : str) : toString (orEmpty (VStr v)) = v.
Proof. destruct v; reflexivity. Qed.


(** *** The scan and the rule *)







Lemma runPasses_app (p q : list (str * str)) (s : str) :
  runPasses (p ++ q) s = runPasses q (runPasses p s).
Proof. unfold runPasses. apply fold_left_app. Qed.



(** *** A stretch that no occurrence touches *)








End TemplateFacts.

(** ** Claims on token substitution *)

Module TemplateClaims.
Import JsString JsValue SvgTemplateProcessor Properties StringFacts.
Import TemplateFacts.







End TemplateClaims.

(** ** Topic wrapping *)

Module TopicFacts.
Import JsString SvgTemplateProcessor StringFacts.

(** While the loop runs, at most [maxLines - 2] lines are committed; it
    is left with at most [maxLines] of them. *)
Lemma topicLoop_length (maxChars maxLines : Z) (all : list str) :
  (2 <= maxLines)%Z ->
  forall words lines currentLine,
    (Z.of_nat (length lines) <= maxLines - 2)%Z ->
    (Z.of_nat
       (length (fst (topicLoop maxChars maxLines all words lines
                       currentLine))) <= maxLines)%Z
    /\ ((Z.of_nat
           (length (fst (topicLoop maxChars maxLines all words lines
                           currentLine))) < maxLines)%Z ->
        (Z.of_nat
           (length (fst (topicLoop maxChars maxLines all words lines
                           currentLine))) <= maxLines - 2)%Z).
Proof.
  intros Hmax words; induction words as [|word rest IH];
    intros lines currentLine Hlen.
  - simpl. lia.
  - cbn [topicLoop].
    destruct (_ <=? maxChars)%Z.
    + now apply IH.
    + set (lines1 := if nonEmpty currentLine then lines ++ [currentLine]
                     else lines).
      assert (H1 : (Z.of_nat (length lines1) <= maxLines - 1)%Z).
      { subst lines1. destruct (nonEmpty currentLine);
          [rewrite length_app; simpl|]; lia. }
      destruct (Z.leb_spec (maxLines - 1) (Z.of_nat (length lines1))).
      * cbn [fst]. rewrite length_app. simpl. lia.
      * apply IH. lia.
Qed.

(** With room for two lines or more, a topic that is not empty comes
    back as exactly [maxLines] lines. *)
Lemma wrapTopicText_length (topic : str) (maxChars maxLines : Z) :
  (2 <= maxLines)%Z -> topic <> [] ->
  length (wrapTopicText topic maxChars maxLines) = Z.to_nat maxLines.
Proof.
  intros Hmax Htopic. unfold wrapTopicText.
  destruct topic as [|c topic]; [congruence|]. cbn [isEmpty].
  set (words := splitChar SPACE (c :: topic)).
  destruct (topicLoop_length maxChars maxLines words Hmax words [] [])
    as [Hle Hlt]; [simpl; lia|].
  destruct (topicLoop maxChars maxLines words words [] [])
    as [lines currentLine].
  cbn [fst] in Hle, Hlt.
  match goal with
  | |- context [repeat _ (Z.to_nat (_ - Z.of_nat (length ?l)))] =>
      set (lines1 := l)
  end.
  assert (H1 : (Z.of_nat (length lines1) <= maxLines)%Z).
  { subst lines1.
    destruct (nonEmpty currentLine); cbn [andb]; [|lia].
    destruct (Z.ltb_spec (Z.of_nat (length lines)) maxLines); [|lia].
    rewrite length_app. simpl. lia. }
  rewrite length_app, repeat_length. lia.
Qed.

(** The default of three lines is met for every topic. *)
Lemma wrapTopicText_default_length (topic : str) (maxChars : Z) :
  length (wrapTopicText topic maxChars defaultMaxLines) = 3.
Proof.
  destruct topic as [|c topic]; [reflexivity|].
  now rewrite wrapTopicText_length.
Qed.

(** C9: the code breaks the statement.  With an empty topic the early
    return gives three empty lines whatever [maxLines] is, here two; with
    [maxLines = 1] a second line is committed before the last-line branch
    is reached; and the last line starts at the first place where its
    first word occurs in the topic, so words already placed come
    again. *)
Theorem wrapTopicText_ignores_maxLines :
  wrapTopicText [] 25 2 = [[]; []; []]
  /\ length (wrapTopicText [] 25 2) <> Z.to_nat 2
  /\ wrapTopicText (lit "aaa bbb") 4 1 = [lit "aaa"; lit "bbb"]
  /\ length (wrapTopicText (lit "aaa bbb") 4 1) <> Z.to_nat 1
  /\ wrapTopicText (lit "x y x z") 1 3 = [lit "x"; lit "y"; lit "x y x z"].
Proof. repeat split; vm_compute; congruence. Qed.

End TopicFacts.

(** ** Inlining of images *)

Module InlinerFacts.
Import JsString Inliner StringFacts.

Lemma inlineNode_Element (b : Browser) (path : list nat) (name : str)
  (attrs : list (str * str)) (kids : list Node) :
  inlineNode b path (Element name attrs kids)
  = Element name
      (if isImage name then inlineImage b path attrs else attrs)
      (inlineKids b path 0 kids).
Proof.
  cbn [inlineNode]. f_equal.
  generalize 0. induction kids as [|k kids IH]; intros i; simpl;
    [reflexivity|].
  now rewrite IH.
Qed.

Lemma inlineKids_nth (b : Browser) (path : list nat) :
  forall ks j i k,
    nth_error ks i = Some k ->
    nth_error (inlineKids b path j ks) i
    = Some (inlineNode b (path ++ [j + i]) k).
Proof.
  induction ks as [|k0 ks IH]; intros j i k H.
  - destruct i; discriminate.
  - destruct i as [|i]; simpl in *.
    + inversion H; subst. now rewrite Nat.add_0_r.
    + rewrite (IH (S j) i k H).
      replace (j + S i) with (S j + i) by lia. reflexivity.
Qed.




Lemma getAttribute_set_same (name v : str) (attrs : list (str * str)) :
  getAttribute name (setAttribute name v attrs) = Some v.
Proof.
  induction attrs as [|[k old] r IH]; simpl.
  - now rewrite eqb_refl.
  - destruct (eqb k name) eqn:E; simpl; rewrite E; auto.
Qed.

Lemma getAttribute_set_other (name name' v : str)
  (attrs : list (str * str)) :
  name <> name' ->
  getAttribute name (setAttribute name' v attrs) = getAttribute name attrs.
Proof.
  intros Hne. induction attrs as [|[k old] r IH]; simpl.
  - destruct (eqb name' name) eqn:E; [|reflexivity].
    apply eqb_eq in E. congruence.
  - destruct (eqb k name') eqn:E; simpl.
    + apply eqb_eq in E. subst k.
      destruct (eqb name' name) eqn:E'; [|reflexivity].
      apply eqb_eq in E'. congruence.
    + destruct (eqb k name); auto.
Qed.


End InlinerFacts.

(** ** Claims on inlining *)

Module InlinerClaims.
Import JsString Inliner StringFacts InlinerFacts Samples.


(** On the sample document the first image, whose request is rejected,
    keeps its reference, and the second carries its data URL in both
    attributes. *)
Example inlineRoot_sample :
  inlineRoot sampleBrowser sampleDocument
  = Element (lit "svg")
      [(lit "xmlns", svgNamespace); (lit "xmlns:xlink", xlinkNamespace)]
      [ Element (lit "image") [(lit "href", lit "a.png")] [];
        Element (lit "image")
          [(lit "href", lit "data:image/png;base64,AA==");
           (lit "xlink:href", lit "data:image/png;base64,AA==")] [] ].
Proof. vm_compute. reflexivity. Qed.


(** C10: [inlineSvgImages] gives its input back unchanged when the input
    is empty, when no window exists, when the parsed document has no
    root element, and when the name of the root is not [svg] in any
    letter case; in the one remaining case, a root named [svg], the
    result is the serialization of the processed document. *)
Theorem inlineSvgImages_guard :
  forall (b : Browser) (svgString : str),
    (svgString = [] -> inlineSvgImages b svgString = svgString)
    /\ (hasWindow b = false -> inlineSvgImages b svgString = svgString)
    /\ (parseFromString b svgString = None ->
        inlineSvgImages b svgString = svgString)
    /\ (forall root,
          parseFromString b svgString = Some root ->
          toLowerCase (nodeName root) <> lit "svg" ->
          inlineSvgImages b svgString = svgString)
    /\ (forall root,
          hasWindow b = true -> svgString <> [] ->
          parseFromString b svgString = Some root ->
          toLowerCase (nodeName root) = lit "svg" ->
          inlineSvgImages b svgString
          = serializeToString b (inlineRoot b root)).
Proof.
  intros b svgString. unfold inlineSvgImages.
  repeat split.
  - intros ->. now rewrite orb_true_r.
  - intros ->. reflexivity.
  - intros ->. now destruct (negb (hasWindow b) || isEmpty svgString).
  - intros root -> Hname.
    destruct (negb (hasWindow b) || isEmpty svgString); [reflexivity|].
    destruct (eqb (toLowerCase (nodeName root)) (lit "svg")) eqn:E;
      [|reflexivity].
    apply eqb_eq in E. congruence.
  - intros root -> Hne -> ->.
    destruct svgString; [congruence|]. reflexivity.
Qed.

Lemma inlineSvgImages_guard_witness :
  inlineSvgImages errorBrowser (lit "<svg") = lit "<svg".
Proof.
  apply (proj1 (proj2 (proj2 (proj2
           (inlineSvgImages_guard errorBrowser (lit "<svg")))))
           (Element (lit "parsererror") [] [])).
  - reflexivity.
  - vm_compute. discriminate.
Defined.

End InlinerClaims.

(** ** Resolution parsing *)

Module ResolutionFacts.
Import JsString JsValue SvgUtils Properties StringFacts.

(** Case analysis on the comparisons of a code unit class. *)
Ltac class_cases :=
  repeat match goal with
    | |- context [N.leb ?a ?b] => destruct (N.leb_spec a b); try lia
    | |- context [N.eqb ?a ?b] => destruct (N.eqb_spec a b); try lia
    end;
  try reflexivity; try discriminate.

Lemma isDigit_bounds (c : codeunit) :
  isDigit c = true -> (48 <= c <= 57)%N.
Proof.
  unfold isDigit. intros H. apply andb_true_iff in H as [H1 H2].
  apply N.leb_le in H1, H2. lia.
Qed.

Lemma isX_cases (c : codeunit) : isX c = true -> c = 120%N \/ c = 88%N.
Proof.
  unfold isX. intros H. apply orb_true_iff in H as [H|H];
    apply N.eqb_eq in H; auto.
Qed.

Lemma digit_not_ws (c : codeunit) :
  isDigit c = true -> isWhiteSpace c = false.
Proof.
  intros H. apply isDigit_bounds in H. unfold isWhiteSpace. class_cases.
Qed.

Lemma x_not_ws (c : codeunit) : isX c = true -> isWhiteSpace c = false.
Proof. intros H. destruct (isX_cases c H); subst; reflexivity. Qed.

Lemma x_not_digit (c : codeunit) : isX c = true -> isDigit c = false.
Proof. intros H. destruct (isX_cases c H); subst; reflexivity. Qed.

Lemma ws_not_digit (c : codeunit) :
  isWhiteSpace c = true -> isDigit c = false.
Proof.
  intros H. destruct (isDigit c) eqn:E; [|reflexivity].
  apply digit_not_ws in E. congruence.
Qed.

Lemma span_spec (p : codeunit -> bool) (s a b : str) :
  span p s = (a, b) -> s = a ++ b /\ forallb p a = true /\ stopsAt p b.
Proof.
  revert a b; induction s as [|c r IH]; intros a b H; simpl in H.
  - inversion H; subst. simpl. auto.
  - destruct (p c) eqn:E.
    + destruct (span p r) as [a' b'] eqn:Er. inversion H; subst.
      destruct (IH a' b eq_refl) as [-> [Ha Hb]].
      simpl. rewrite E, Ha. auto.
    + inversion H; subst. simpl. auto.
Qed.

Lemma span_app (p : codeunit -> bool) (a b : str) :
  forallb p a = true -> stopsAt p b -> span p (a ++ b) = (a, b).
Proof.
  intros Ha Hb. induction a as [|c a IH]; simpl in *.
  - destruct b as [|c b]; [reflexivity|]. simpl in *. now rewrite Hb.
  - apply andb_true_iff in Ha as [Hc Ha]. rewrite Hc, (IH Ha).
    reflexivity.
Qed.

Lemma trimStart_spec (s : str) :
  exists ws, s = ws ++ trimStart s
             /\ forallb isWhiteSpace ws = true
             /\ stopsAt isWhiteSpace (trimStart s).
Proof.
  induction s as [|c r [ws [E [Hws Hstop]]]]; simpl.
  - exists []. simpl. auto.
  - destruct (isWhiteSpace c) eqn:Ec.
    + exists (c :: ws). simpl. rewrite Ec, Hws. split; [congruence|auto].
    + exists []. simpl. auto.
Qed.

Lemma trimStart_app (ws b : str) :
  forallb isWhiteSpace ws = true -> stopsAt isWhiteSpace b ->
  trimStart (ws ++ b) = b.
Proof.
  intros Hws Hb. induction ws as [|c ws IH]; simpl in *.
  - destruct b as [|c b]; [reflexivity|]. simpl in *. now rewrite Hb.
  - apply andb_true_iff in Hws as [Hc Hws]. rewrite Hc. auto.
Qed.

(** The matcher accepts exactly the texts of the form of the regular
    expression, and captures the two digit strings. *)
Lemma matchResolution_sound (s d1 d2 : str) :
  matchResolution s = Some (d1, d2) -> resolutionText s d1 d2.
Proof.
  unfold matchResolution.
  destruct (span isDigit s) as [a r1] eqn:E1.
  apply span_spec in E1 as [-> [Ha _]].
  destruct (isEmpty a) eqn:Ea; [discriminate|].
  destruct (trimStart_spec r1) as [ws1 [Er1 [Hws1 _]]].
  destruct (trimStart r1) as [|c r2] eqn:Et; [discriminate|].
  destruct (isX c) eqn:Ex; [|discriminate].
  destruct (trimStart_spec r2) as [ws2 [Er2 [Hws2 _]]].
  destruct (span isDigit (trimStart r2)) as [b r3] eqn:E2.
  apply span_spec in E2 as [Eb3 [Hb _]].
  destruct (isEmpty b) eqn:Eb; [discriminate|].
  destruct (isEmpty r3) eqn:E3; [|discriminate].
  apply isEmpty_true in E3. subst r3. rewrite app_nil_r in Eb3.
  intros H. injection H as <- <-.
  rewrite Er1, Er2, Eb3.
  constructor; auto.
  - intros ->. discriminate.
  - intros ->. discriminate.
Qed.

Lemma matchResolution_complete (s d1 d2 : str) :
  resolutionText s d1 d2 -> matchResolution s = Some (d1, d2).
Proof.
  intros [a ws1 x ws2 b Ha Hb Hda Hws1 Hx Hws2 Hdb].
  unfold matchResolution.
  rewrite span_app; auto.
  2:{ destruct ws1 as [|c ws1]; simpl.
      - now apply x_not_digit.
      - simpl in Hws1. apply andb_true_iff in Hws1 as [Hc _].
        now apply ws_not_digit. }
  destruct a as [|a0 a]; [congruence|]. cbn [isEmpty].
  rewrite trimStart_app; auto.
  2:{ simpl. now apply x_not_ws. }
  rewrite Hx.
  destruct b as [|b0 b]; [congruence|].
  rewrite trimStart_app; auto.
  2:{ simpl in *. apply andb_true_iff in Hdb as [Hc _].
      now apply digit_not_ws. }
  rewrite <- (app_nil_r (b0 :: b)) at 1.
  rewrite span_app; auto. simpl. exact I.
Qed.

(** A natural number below [2^53] is a double. *)
Lemma roundToDouble_exact (n : N) :
  (n < 2 ^ 53)%N -> roundToDouble n = Some n.
Proof.
  intros H. unfold roundToDouble.
  destruct (N.leb_spec (N.size n) 53) as [_|Hs]; [reflexivity|].
  exfalso.
  pose proof (N.size_le n) as Hle.
  assert (Hp : (2 ^ 54 <= 2 ^ N.size n)%N)
    by (apply N.pow_le_mono_r; lia).
  rewrite N.succ_double_spec in Hle.
  change (2 ^ 54)%N with (2 * 2 ^ 53)%N in Hp. lia.
Qed.

(** Rounding keeps a number positive. *)
Lemma roundToDouble_positive (n v : N) :
  roundToDouble n = Some v -> ((0 < v)%N <-> (0 < n)%N).
Proof.
  unfold roundToDouble.
  destruct (N.leb_spec (N.size n) 53) as [_|Hs].
  { intros H. inversion H. tauto. }
  set (sh := (N.size n - 53)%N).
  set (q := N.shiftr n sh).
  match goal with
  | |- context [N.shiftl ?x sh] => set (q' := x)
  end.
  destruct (2 ^ 1024 <=? N.shiftl q' sh)%N; [discriminate|].
  intros H. inversion H as [Hv]. clear H.
  assert (Hn : (0 < n)%N).
  { destruct n; [simpl in Hs; lia|lia]. }
  assert (Hq : (0 < q)%N).
  { subst q. rewrite N.shiftr_div_pow2.
    apply N.div_str_pos. split; [apply N.neq_0_lt_0, N.pow_nonzero; lia|].
    pose proof (N.size_log2 n ltac:(lia)) as Hsz.
    transitivity (2 ^ N.log2 n)%N.
    - apply N.pow_le_mono_r; [lia|]. subst sh. lia.
    - apply N.log2_spec. lia. }
  assert (Hq' : (0 < q')%N).
  { subst q'. destruct (_ || _); lia. }
  rewrite N.shiftl_mul_pow2.
  assert (0 < 2 ^ sh)%N by (apply N.neq_0_lt_0, N.pow_nonzero; lia).
  split; [auto|]. intros _. apply N.mul_pos_pos; assumption.
Qed.

(** Both components of a parsed resolution are positive. *)
Lemma parseResolution_positive (v : value) :
  (0 < fst (parseResolution v))%N /\ (0 < snd (parseResolution v))%N.
Proof.
  unfold parseResolution.
  destruct v as [| | | |s]; try (split; reflexivity).
  destruct (matchResolution (trim s)) as [[d1 d2]|];
    [|split; reflexivity].
  destruct (NumberOfDigits d1) as [w|]; [|split; reflexivity].
  destruct (NumberOfDigits d2) as [h|]; [|split; reflexivity].
  destruct (N.ltb_spec 0 w); [|split; reflexivity].
  destruct (N.ltb_spec 0 h); [|split; reflexivity].
  split; assumption.
Qed.

End ResolutionFacts.

(** ** Claims on resolution parsing *)

Module ResolutionClaims.
Import JsString JsValue SvgUtils Properties StringFacts ResolutionFacts.

(** C4, as stated, fails: a string with white space in front is not of
    the form digits, [x], digits, yet [parseResolution] trims it and
    returns its pair instead of the fallback; and a component above
    [2^53] comes back as the nearest double, not as written. *)
Lemma parseResolution_trims_and_rounds :
  parseResolution (VStr (lit " 1280x720")) = (1280%N, 720%N)
  /\ (forall d1 d2, ~ resolutionText (lit " 1280x720") d1 d2)
  /\ parseResolution (VStr (lit "9007199254740993x1080"))
     = (9007199254740992%N, 1080%N)
  /\ decimalValue (lit "9007199254740993") = 9007199254740993%N.
Proof.
  split; [vm_compute; reflexivity|].
  split.
  { intros d1 d2 H.
    inversion H as [a ws1 x ws2 b Ha Hb Hda Hw1 Hx Hw2 Hdb E E1 E2].
    destruct a as [|c a]; [congruence|].
    subst d1. vm_compute in E. injection E as Ec _. subst c.
    discriminate Hda. }
  split; vm_compute; reflexivity.
Qed.

(** C4, amended: [parseResolution] returns the pair of the two
    components, as [Number] converts them, exactly when its input is a
    string that after trimming white space at both ends consists of
    digits, optional white space, [x] or [X], optional white space and
    digits, and both converted components are finite and positive; for
    every other input it returns 1920 by 1080.  A component below [2^53]
    converts to itself, and a converted component is positive exactly
    when the written one is. *)
Theorem parseResolution_spec :
  forall v : value,
    (forall s d1 d2 w h,
        v = VStr s -> resolutionText (trim s) d1 d2 ->
        NumberOfDigits d1 = Some w -> NumberOfDigits d2 = Some h ->
        (0 < w)%N -> (0 < h)%N ->
        parseResolution v = (w, h))
    /\ ((forall s d1 d2 w h,
            v = VStr s -> resolutionText (trim s) d1 d2 ->
            NumberOfDigits d1 = Some w -> NumberOfDigits d2 = Some h ->
            ~ ((0 < w)%N /\ (0 < h)%N)) ->
        parseResolution v = fallbackResolution)
    /\ (forall ds,
          (decimalValue ds < 2 ^ 53)%N ->
          NumberOfDigits ds = Some (decimalValue ds))
    /\ (forall ds n,
          NumberOfDigits ds = Some n ->
          ((0 < n)%N <-> (0 < decimalValue ds)%N)).
Proof.
  intros v. split; [|split; [|split]].
  - intros s d1 d2 w h -> Hform Hw Hh Pw Ph.
    unfold parseResolution.
    rewrite (matchResolution_complete _ _ _ Hform), Hw, Hh.
    apply N.ltb_lt in Pw, Ph. now rewrite Pw, Ph.
  - intros Hnone. unfold parseResolution.
    destruct v as [| | | |s]; try reflexivity.
    destruct (matchResolution (trim s)) as [[d1 d2]|] eqn:Em;
      [|reflexivity].
    apply matchResolution_sound in Em.
    destruct (NumberOfDigits d1) as [w|] eqn:Ew; [|reflexivity].
    destruct (NumberOfDigits d2) as [h|] eqn:Eh; [|reflexivity].
    destruct (N.ltb_spec 0 w); [|reflexivity].
    destruct (N.ltb_spec 0 h); [|reflexivity].
    exfalso. apply (Hnone s d1 d2 w h eq_refl Em Ew Eh). auto.
  - intros ds. apply roundToDouble_exact.
  - intros ds n. apply roundToDouble_positive.
Qed.

Lemma parseResolution_spec_witness :
  parseResolution (VStr (lit " 1280 X 720 ")) = (1280%N, 720%N).
Proof.
  apply (proj1 (parseResolution_spec (VStr (lit " 1280 X 720 ")))
           (lit " 1280 X 720 ") (lit "1280") (lit "720") 1280%N 720%N
           eq_refl).
  - apply (resolutionText_intro (lit "1280") (lit " ") 88%N (lit " ")
             (lit "720")); try reflexivity; discriminate.
  - vm_compute. reflexivity.
  - vm_compute. reflexivity.
  - reflexivity.
  - reflexivity.
Defined.

End ResolutionClaims.

(** ** Wrapping *)

Module WrapFacts.
Import JsString Metrics SvgUtils Properties StringFacts ResolutionFacts.

(** *** White space at the ends *)

Lemma trimEnd_cons_keep (c : codeunit) (r : str) :
  isWhiteSpace c = false -> trimEnd (c :: r) = c :: trimEnd r.
Proof. intros H. simpl. rewrite H. now destruct (trimEnd r). Qed.

Lemma trimEnd_cons_ws (c : codeunit) (r : str) :
  isWhiteSpace c = true ->
  trimEnd (c :: r) = if isEmpty (trimEnd r) then [] else c :: trimEnd r.
Proof. intros H. simpl. rewrite H. now destruct (trimEnd r). Qed.

Lemma trimEnd_cons_nonempty (c : codeunit) (r : str) :
  trimEnd r <> [] -> trimEnd (c :: r) = c :: trimEnd r.
Proof. intros H. simpl. destruct (trimEnd r); congruence. Qed.

Lemma trimEnd_app (a b : str) :
  trimEnd (a ++ b)
  = if isEmpty (trimEnd b) then trimEnd a else a ++ trimEnd b.
Proof.
  induction a as [|c a IH].
  - simpl. now destruct (trimEnd b).
  - change ((c :: a) ++ b) with (c :: a ++ b).
    destruct (isEmpty (trimEnd b)) eqn:E.
    + simpl. now rewrite IH.
    + assert (Hne : trimEnd (a ++ b) <> []).
      { rewrite IH. destruct a; simpl; [|discriminate].
        now apply nonEmpty_true; unfold nonEmpty; rewrite E. }
      rewrite (trimEnd_cons_nonempty c _ Hne), IH. reflexivity.
Qed.

Lemma trimEnd_wsFree (w : str) : wsFree w -> trimEnd w = w.
Proof.
  unfold wsFree. induction w as [|c w IH]; intros H; [reflexivity|].
  rewrite trimEnd_cons_keep by (apply H; now left).
  f_equal. apply IH. intros x Hx. apply H. now right.
Qed.

Lemma wsFree_tidy (w : str) : wsFree w -> tidy w.
Proof.
  intros H. split; [|now apply trimEnd_wsFree].
  destruct w as [|c w]; simpl; [exact I|]. apply H. now left.
Qed.

Lemma tidy_trimStart (s : str) : tidy s -> trimStart s = s.
Proof.
  intros [H _]. destruct s as [|c s]; [reflexivity|].
  simpl in *. now rewrite H.
Qed.

(** The candidate line of [wrapText], for a tidy line and a word without
    white space. *)
Lemma trim_candidate (cur word : str) :
  tidy cur -> wsFree word ->
  trim (cur ++ SPACE :: word)
  = if nonEmpty cur
    then if nonEmpty word then cur ++ SPACE :: word else cur
    else word.
Proof.
  intros Hcur Hword. unfold trim.
  pose proof (trimEnd_wsFree word Hword) as Ew.
  destruct cur as [|c cur].
  - cbn [app nonEmpty isEmpty negb trimStart].
    change (isWhiteSpace SPACE) with true. cbn iota.
    rewrite (tidy_trimStart word (wsFree_tidy word Hword)). exact Ew.
  - destruct Hcur as [Hc Hend]. simpl in Hc.
    change ((c :: cur) ++ SPACE :: word)
      with (c :: cur ++ SPACE :: word).
    cbn [trimStart]. rewrite Hc.
    change (c :: cur ++ SPACE :: word)
      with ((c :: cur) ++ SPACE :: word).
    rewrite trimEnd_app.
    rewrite (trimEnd_cons_ws SPACE word eq_refl), Ew, Hend.
    destruct word; reflexivity.
Qed.

Lemma tidy_candidate (cur word : str) :
  tidy cur -> wsFree word -> tidy (trim (cur ++ SPACE :: word)).
Proof.
  intros Hcur Hword. rewrite trim_candidate by assumption.
  destruct cur as [|c cur]; cbn [nonEmpty isEmpty negb].
  - now apply wsFree_tidy.
  - destruct word as [|w0 word]; cbn [nonEmpty isEmpty negb];
      [assumption|].
    destruct Hcur as [Hc Hend]. split; [exact Hc|].
    rewrite trimEnd_app, (trimEnd_cons_ws SPACE _ eq_refl).
    now rewrite (trimEnd_wsFree _ Hword).
Qed.

(** *** The pieces of a split and the normalized text *)

Lemma splitChar_cons (c : codeunit) (s : str) :
  exists w ws, splitChar c s = w :: ws.
Proof.
  destruct s as [|x r]; simpl; [eauto|].
  destruct (N.eqb x c); [eauto|]. destruct (splitChar c r); eauto.
Qed.

Lemma splitWsFrom_cons (b : bool) (s : str) :
  exists w ws, splitWsFrom b s = w :: ws.
Proof.
  revert b; induction s as [|x r IH]; intros b; simpl; [eauto|].
  destruct (isWhiteSpace x).
  - destruct b; eauto.
  - destruct (splitWsFrom false r); eauto.
Qed.

Lemma splitWsFrom_flag (s : str) :
  filter nonEmpty (splitWsFrom true s)
  = filter nonEmpty (splitWsFrom false s).
Proof.
  destruct s as [|x r]; [reflexivity|]. simpl.
  destruct (isWhiteSpace x); reflexivity.
Qed.

Lemma splitWs_trimStart (s : str) :
  filter nonEmpty (splitWs s) = filter nonEmpty (splitWs (trimStart s)).
Proof.
  unfold splitWs. induction s as [|x r IH]; [reflexivity|].
  cbn [trimStart]. destruct (isWhiteSpace x) eqn:E; [|reflexivity].
  rewrite <- IH. cbn [splitWsFrom]. rewrite E. simpl.
  apply splitWsFrom_flag.
Qed.

(** After a separator, the first piece is empty exactly when only white
    space is left. *)
Lemma splitWsFrom_true_head (s w : str) (ws : list str) :
  splitWsFrom true s = w :: ws ->
  (trimEnd s = [] -> w = [] /\ ws = []) /\ (trimEnd s <> [] -> w <> []).
Proof.
  revert w ws; induction s as [|x r IH]; intros w ws H; simpl in H.
  - inversion H; subst. simpl. split; auto.
  - destruct (isWhiteSpace x) eqn:E.
    + rewrite (trimEnd_cons_ws x r E).
      destruct (IH w ws H) as [H1 H2].
      destruct (trimEnd r) eqn:Er; simpl; split; auto; try congruence.
      intros _. apply H2. discriminate.
    + destruct (splitWsFrom false r); inversion H; subst;
        rewrite (trimEnd_cons_keep x r E); split; intros; congruence.
Qed.

Lemma collapse_split (s : str) :
  forall (b : bool) (w : str) (ws : list str),
    splitWsFrom b s = w :: ws ->
    collapseWs b (trimEnd s) = w ++ spaced (filter nonEmpty ws).
Proof.
  induction s as [|x r IH]; intros b w ws H; simpl in H.
  - inversion H; subst. reflexivity.
  - destruct (isWhiteSpace x) eqn:E.
    + rewrite (trimEnd_cons_ws x r E).
      destruct b.
      * rewrite <- (IH true w ws H).
        destruct (trimEnd r); simpl; [reflexivity|]. now rewrite E.
      * inversion H; subst w ws. clear H.
        destruct (splitWsFrom_cons true r) as [w' [ws' H']].
        rewrite H'.
        destruct (splitWsFrom_true_head r w' ws' H') as [H1 H2].
        pose proof (IH true w' ws' H') as IHt.
        destruct (trimEnd r) as [|t0 t] eqn:Er.
        -- destruct (H1 eq_refl) as [-> ->]. reflexivity.
        -- cbn [isEmpty collapseWs]. rewrite E.
           cbn [collapseWs] in IHt. rewrite IHt.
           assert (Hw : w' <> []) by (apply H2; discriminate).
           destruct w'; [congruence|]. reflexivity.
    + rewrite (trimEnd_cons_keep x r E). cbn [collapseWs]. rewrite E.
      destruct (splitWsFrom_cons false r) as [w' [ws' H']].
      rewrite H' in H. injection H as Hw Hws. subst w ws.
      now rewrite (IH false w' ws' H').
Qed.

(** Joining the words of a text with single spaces gives the normalized
    text. *)
Lemma join_words (s : str) :
  join [SPACE] (filter nonEmpty (splitWs s)) = normalizeWhitespace s.
Proof.
  rewrite join_spaced, splitWs_trimStart. unfold normalizeWhitespace, trim.
  destruct (trimStart_spec s) as [_ [_ [_ Hstop]]].
  set (t := trimStart s) in *. unfold splitWs.
  destruct (splitWsFrom_cons false t) as [w [ws H]].
  rewrite (collapse_split t false w ws H), H.
  destruct t as [|c t].
  - inversion H; subst. reflexivity.
  - simpl in Hstop, H. rewrite Hstop in H.
    destruct (splitWsFrom false t); inversion H; subst; reflexivity.
Qed.

(** In a text whose only white space is the space, cutting at every
    space and cutting at every run of white space give the same words. *)
Lemma splitChar_splitWs (s : str) :
  spacesOnly s ->
  forall w ws w' ws',
    splitChar SPACE s = w :: ws -> splitWsFrom false s = w' :: ws' ->
    w = w' /\ filter nonEmpty ws = filter nonEmpty ws'.
Proof.
  unfold spacesOnly.
  induction s as [|x r IH]; intros Hs w ws w' ws' H H'; simpl in H, H'.
  - inversion H; inversion H'; subst. auto.
  - assert (Hr : forall c, In c r -> isWhiteSpace c = true -> c = SPACE)
      by (intros c Hc; apply Hs; now right).
    destruct (splitChar_cons SPACE r) as [u [us Eu]].
    destruct (splitWsFrom_cons false r) as [u' [us' Eu']].
    destruct (IH Hr u us u' us' Eu Eu') as [-> Hf].
    destruct (N.eqb_spec x SPACE) as [->|Hx].
    + change (isWhiteSpace SPACE) with true in H'. cbn iota in H'.
      inversion H; inversion H'; subst. split; [reflexivity|].
      rewrite splitWsFrom_flag, Eu, Eu'. simpl. now rewrite Hf.
    + destruct (isWhiteSpace x) eqn:E.
      { exfalso. apply Hx. apply Hs; [now left|exact E]. }
      rewrite Eu in H. rewrite Eu' in H'.
      inversion H; inversion H'; subst. auto.
Qed.

Lemma splitChar_words (s : str) :
  spacesOnly s ->
  filter nonEmpty (splitChar SPACE s) = filter nonEmpty (splitWs s).
Proof.
  intros Hs. unfold splitWs.
  destruct (splitChar_cons SPACE s) as [w [ws E]].
  destruct (splitWsFrom_cons false s) as [w' [ws' E']].
  destruct (splitChar_splitWs s Hs _ _ _ _ E E') as [-> Hf].
  rewrite E, E'. simpl. now rewrite Hf.
Qed.

Lemma splitChar_wsFree (s : str) :
  spacesOnly s -> Forall wsFree (splitChar SPACE s).
Proof.
  unfold spacesOnly.
  induction s as [|x r IH]; intros Hs; simpl.
  - constructor; [intros c []|constructor].
  - assert (Hr : forall c, In c r -> isWhiteSpace c = true -> c = SPACE)
      by (intros c Hc; apply Hs; now right).
    specialize (IH Hr).
    destruct (N.eqb_spec x SPACE) as [->|Hx].
    + constructor; [intros c []|exact IH].
    + destruct (splitChar SPACE r) as [|w ws].
      * constructor; [|constructor].
        intros c [Hc|[]]. subst c.
        destruct (isWhiteSpace x) eqn:E; [|reflexivity].
        exfalso. apply Hx. apply Hs; [now left|exact E].
      * inversion IH as [|? ? Hw Hws]; subst.
        constructor; [|exact Hws].
        intros c [Hc|Hc]; [subst c|now apply Hw].
        destruct (isWhiteSpace x) eqn:E; [|reflexivity].
        exfalso. apply Hx. apply Hs; [now left|exact E].
Qed.

End WrapFacts.

(** ** Claims on wrapping *)

Module WrapClaims.
Import JsString Metrics SvgUtils Properties StringFacts WrapFacts.

Lemma spaced_pushLine (lines : list str) (cur : str) :
  spaced (pushLine lines cur)
  = spaced lines ++ (if nonEmpty cur then SPACE :: cur else []).
Proof.
  unfold pushLine. destruct (nonEmpty cur).
  - rewrite spaced_app. simpl. now rewrite app_nil_r.
  - now rewrite app_nil_r.
Qed.

Lemma spaced_single (word : str) :
  spaced (filter nonEmpty [word])
  = if nonEmpty word then SPACE :: word else [].
Proof.
  simpl. destruct (nonEmpty word); simpl; [|reflexivity].
  now rewrite app_nil_r.
Qed.

(** One round of [wrapText] adds the word, if it is not empty, to the
    text of the lines, and leaves the current line tidy. *)
Lemma wrapTextStep_spaced (maxChars : Z) (lines : list str)
  (cur word : str) :
  tidy cur -> wsFree word ->
  tidy (snd (wrapTextStep maxChars (lines, cur) word))
  /\ spaced (pushLine (fst (wrapTextStep maxChars (lines, cur) word))
               (snd (wrapTextStep maxChars (lines, cur) word)))
     = spaced (pushLine lines cur) ++ spaced (filter nonEmpty [word]).
Proof.
  intros Hcur Hword. unfold wrapTextStep.
  pose proof (tidy_candidate cur word Hcur Hword) as Ht.
  pose proof (trim_candidate cur word Hcur Hword) as Ec.
  destruct (_ <=? maxChars)%Z; cbn [fst snd].
  - split; [exact Ht|].
    rewrite !spaced_pushLine, spaced_single, Ec.
    destruct cur, word; cbn [nonEmpty isEmpty negb];
      rewrite <- ?app_assoc, ?app_nil_r; reflexivity.
  - split; [now apply wsFree_tidy|].
    rewrite (spaced_pushLine (pushLine lines cur) word), spaced_single.
    reflexivity.
Qed.

Lemma wrapText_fold (maxChars : Z) :
  forall words lines cur,
    Forall wsFree words -> tidy cur ->
    spaced (pushLine
              (fst (fold_left (wrapTextStep maxChars) words (lines, cur)))
              (snd (fold_left (wrapTextStep maxChars) words (lines, cur))))
    = spaced (pushLine lines cur) ++ spaced (filter nonEmpty words).
Proof.
  induction words as [|word rest IH]; intros lines cur Hw Hcur.
  - simpl. now rewrite app_nil_r.
  - inversion Hw as [|? ? Hword Hrest]; subst.
    destruct (wrapTextStep_spaced maxChars lines cur word Hcur Hword)
      as [Ht Es].
    cbn [fold_left].
    destruct (wrapTextStep maxChars (lines, cur) word) as [lines' cur'].
    cbn [fst snd] in *.
    rewrite (IH lines' cur' Hrest Ht), Es, <- app_assoc.
    f_equal. change (word :: rest) with ([word] ++ rest).
    now rewrite filter_app, spaced_app.
Qed.

(** One round of [wrapTextToWidth] adds the word to the text of the
    lines. *)
Lemma wrapWidthStep_spaced (measure : str -> Q) (maxWidth : Q)
  (lines : list str) (cur word : str) :
  nonEmpty word = true ->
  spaced (pushLine (fst (wrapWidthStep measure maxWidth (lines, cur) word))
            (snd (wrapWidthStep measure maxWidth (lines, cur) word)))
  = spaced (pushLine lines cur) ++ SPACE :: word.
Proof.
  intros Hword. unfold wrapWidthStep.
  destruct (Qle_bool _ maxWidth); cbn [fst snd].
  - rewrite !spaced_pushLine.
    destruct cur; cbn [nonEmpty isEmpty negb].
    + now rewrite Hword, app_nil_r.
    + rewrite <- app_assoc. reflexivity.
  - rewrite (spaced_pushLine (pushLine lines cur) word). now rewrite Hword.
Qed.

Lemma wrapWidth_fold (measure : str -> Q) (maxWidth : Q) :
  forall words lines cur,
    Forall (fun w => nonEmpty w = true) words ->
    spaced (pushLine
              (fst (fold_left (wrapWidthStep measure maxWidth) words
                      (lines, cur)))
              (snd (fold_left (wrapWidthStep measure maxWidth) words
                      (lines, cur))))
    = spaced (pushLine lines cur) ++ spaced words.
Proof.
  induction words as [|word rest IH]; intros lines cur Hw.
  - simpl. now rewrite app_nil_r.
  - inversion Hw as [|? ? Hword Hrest]; subst.
    pose proof (wrapWidthStep_spaced measure maxWidth lines cur word Hword)
      as Es.
    cbn [fold_left].
    destruct (wrapWidthStep measure maxWidth (lines, cur) word)
      as [lines' cur'].
    cbn [fst snd] in *.
    rewrite (IH lines' cur' Hrest), Es, <- app_assoc. reflexivity.
Qed.

Lemma wrapText_keepsWords (text : str) (maxChars : Z) :
  spacesOnly text -> keepsWords (wrapText text maxChars) text.
Proof.
  intros Hs. unfold keepsWords, wrapText.
  destruct text as [|c text]; [reflexivity|]. cbn [isEmpty].
  pose proof (wrapText_fold maxChars (splitChar SPACE (c :: text)) [] []
                (splitChar_wsFree _ Hs)) as E.
  destruct (fold_left _ _ _) as [lines cur]. cbn [fst snd] in E.
  rewrite join_spaced, E by (split; [exact I|reflexivity]).
  cbn [pushLine nonEmpty isEmpty negb spaced flat_map app].
  rewrite <- join_spaced, (splitChar_words _ Hs). apply join_words.
Qed.

Lemma wrapWidth_keepsWords (text : str) (maxWidth : Q) (c : Ctx)
  (f : Font) :
  (0 < maxWidth)%Q ->
  keepsWords (wrapTextToWidth text maxWidth (Some c) (Some f)) text.
Proof.
  intros HW. unfold keepsWords, wrapTextToWidth.
  destruct text as [|c0 text]; [reflexivity|]. cbn [isEmpty].
  destruct (Qle_bool maxWidth 0) eqn:E.
  { apply Qle_bool_iff in E. exfalso. apply (Qlt_not_le _ _ HW E). }
  set (words := filter nonEmpty (splitWs (c0 :: text))).
  assert (Hw : Forall (fun w => nonEmpty w = true) words).
  { apply Forall_forall. intros w Hin.
    now apply filter_In in Hin as [_ Hin]. }
  pose proof (wrapWidth_fold (c f) maxWidth words [] [] Hw) as Es.
  destruct (fold_left _ _ _) as [lines cur]. cbn [fst snd] in Es.
  rewrite join_spaced, Es.
  cbn [pushLine nonEmpty isEmpty negb spaced flat_map app].
  rewrite <- join_spaced. apply join_words.
Qed.

(** C7, as stated, fails for the character-budget mode: a tab is not a
    separator for [wrapText], which keeps it inside the line, where the
    normalized text has a space. *)
Lemma wrapText_keeps_tabs :
  wrapText [97; 9; 98]%N 22 = [[97; 9; 98]%N]
  /\ normalizeWhitespace [97; 9; 98]%N = [97; 32; 98]%N
  /\ ~ keepsWords (wrapText [97; 9; 98]%N 22) [97; 9; 98]%N.
Proof.
  repeat split; try (vm_compute; reflexivity).
  unfold keepsWords. vm_compute. discriminate.
Qed.

(** C7, amended: the width-budget mode, run with a measuring context, a
    font and a positive budget, drops no word of any text: its lines
    joined by single spaces are the text with every run of white space
    turned into one space and none at the ends.  The character-budget
    mode, and with it the width-budget mode when it falls back to it,
    does so for every text whose only white space is the space
    character, and for every budget. *)
Theorem wrapping_keeps_words :
  (forall text maxWidth (c : Ctx) (f : Font),
      (0 < maxWidth)%Q ->
      keepsWords (wrapTextToWidth text maxWidth (Some c) (Some f)) text)
  /\ (forall text maxChars,
        spacesOnly text -> keepsWords (wrapText text maxChars) text)
  /\ (forall text maxWidth ctx font,
        spacesOnly text ->
        keepsWords (wrapTextToWidth text maxWidth ctx font) text).
Proof.
  split; [exact wrapWidth_keepsWords|].
  split; [exact wrapText_keepsWords|].
  intros text maxWidth ctx font Hs.
  destruct ctx as [c|], font as [f|];
    try (unfold keepsWords, wrapTextToWidth;
         destruct text; [reflexivity|]; cbn [isEmpty];
         now apply wrapText_keepsWords).
  destruct (Qlt_le_dec 0 maxWidth) as [HW|HW].
  - now apply wrapWidth_keepsWords.
  - unfold keepsWords, wrapTextToWidth.
    destruct text; [reflexivity|]. cbn [isEmpty].
    apply Qle_bool_iff in HW. rewrite HW.
    now apply wrapText_keepsWords.
Qed.

Lemma wrapping_keeps_words_witness :
  keepsWords
    (wrapTextToWidth (lit "  one	two   three ") 200
       (Some heuristicWidth) (Some (mkFont 700 75)))
    (lit "  one	two   three ")
  /\ keepsWords (wrapText (lit " a  bb ccc ") 4) (lit " a  bb ccc ").
Proof.
  split.
  - apply (proj1 wrapping_keeps_words). reflexivity.
  - apply (proj1 (proj2 wrapping_keeps_words)).
    intros c Hin Hws. vm_compute in Hin.
    repeat (destruct Hin as [<-|Hin]; [try reflexivity; discriminate|]).
    destruct Hin.
Defined.

End WrapClaims.

(** ** Ellipsis truncation *)

Module EllipsisFacts.
Import JsString Metrics Properties StringFacts WrapFacts OnDotNetLive.

Lemma mid_bounds (low high : nat) :
  low < high ->
  low < (low + high + 1) / 2 <= high
  /\ low + high <= 2 * ((low + high + 1) / 2) <= low + high + 1.
Proof.
  intros H.
  pose proof (Nat.div_mod_eq (low + high + 1) 2).
  pose proof (Nat.mod_upper_bound (low + high + 1) 2). lia.
Qed.

(** A text is its [trimEnd] followed by what [trimEnd] takes off. *)
Lemma trimEnd_prefix (a : str) : exists t, a = trimEnd a ++ t.
Proof.
  induction a as [|c a [t IH]].
  - now exists [].
  - simpl. destruct (trimEnd a) as [|x r] eqn:E.
    + destruct (isWhiteSpace c).
      * now exists (c :: a).
      * exists a. reflexivity.
    + exists t. simpl in *. now rewrite <- IH.
Qed.

Lemma trimEnd_extend (a u : str) :
  exists t, trimEnd (a ++ u) = trimEnd a ++ t.
Proof.
  rewrite trimEnd_app. destruct (isEmpty (trimEnd u)).
  - exists []. now rewrite app_nil_r.
  - destruct (trimEnd_prefix a) as [t E].
    exists (t ++ trimEnd u). rewrite app_assoc, <- E. reflexivity.
Qed.

(** The candidates are nested: the one of a shorter prefix starts the
    one of a longer prefix. *)
Lemma candidate_nested (s : str) (j k : nat) :
  j <= k ->
  exists t, candidate s k = trimEnd (slice0 s j) ++ t ++ [ELLIPSIS].
Proof.
  intros H. unfold candidate, slice0.
  assert (E : firstn k s = firstn j s ++ skipn j (firstn k s)).
  { rewrite <- (firstn_skipn j (firstn k s)) at 1.
    rewrite firstn_firstn. now replace (Nat.min j k) with j by lia. }
  rewrite E. destruct (trimEnd_extend (firstn j s) (skipn j (firstn k s)))
    as [t Et].
  exists t. now rewrite Et, <- app_assoc.
Qed.

Section Search.

Variable measure : str -> Q.
Variable maxWidth : Q.
Variable trimmed : str.
Hypothesis measure_monotone : monotoneWidth measure.

Lemma candidateFits_downward (j k : nat) :
  j <= k ->
  candidateFits measure maxWidth trimmed k ->
  candidateFits measure maxWidth trimmed j.
Proof.
  intros H Hk. unfold candidateFits, fits in *.
  destruct (candidate_nested trimmed j k H) as [t E]. rewrite E in Hk.
  eapply Qle_trans; [|exact Hk]. apply measure_monotone.
Qed.

(** A candidate is never wider than the untrimmed prefix with the
    ellipsis. *)
Lemma candidate_le_prefix (k : nat) :
  (measure (candidate trimmed k)
   <= measure (slice0 trimmed k ++ [ELLIPSIS]))%Q.
Proof.
  unfold candidate. destruct (trimEnd_prefix (slice0 trimmed k)) as [t E].
  rewrite E at 2. rewrite <- app_assoc. apply measure_monotone.
Qed.

(** The loop is left through its test, with the largest fitting length
    in [low]. *)
Lemma search_correct :
  forall fuel low high calls,
    low <= high -> high <= length trimmed -> high - low <= fuel ->
    candidateFits measure maxWidth trimmed low ->
    (forall j, high < j <= length trimmed ->
               ~ candidateFits measure maxWidth trimmed j) ->
    let r := search measure maxWidth trimmed fuel low high calls in
    fst (fst r) = snd (fst r)
    /\ low <= fst (fst r) <= high
    /\ candidateFits measure maxWidth trimmed (fst (fst r))
    /\ (forall j, fst (fst r) < j <= length trimmed ->
                  ~ candidateFits measure maxWidth trimmed j).
Proof.
  induction fuel as [|fuel IH]; intros low high calls Hlh Hn Hfuel Hlow Hhigh.
  - assert (low = high) by lia. subst. simpl. repeat split; auto.
  - cbn [search]. destruct (Nat.ltb_spec low high) as [Hlt|Hge].
    + destruct (mid_bounds low high Hlt) as [[Hm1 Hm2] _].
      set (mid := (low + high + 1) / 2) in *.
      destruct (Qle_bool (measure (candidate trimmed mid)) maxWidth) eqn:E.
      * apply Qle_bool_iff in E.
        destruct (IH mid high (S calls)) as [H1 [H2 [H3 H4]]];
          try lia; auto.
        repeat split; auto; lia.
      * assert (Hmid : ~ candidateFits measure maxWidth trimmed mid).
        { intros Hf. apply Qle_bool_iff in Hf. congruence. }
        destruct (IH low (mid - 1) (S calls)) as [H1 [H2 [H3 H4]]];
          try lia; auto.
        { intros j Hj Hf. destruct (Nat.le_gt_cases j high).
          - apply Hmid. apply (candidateFits_downward mid j); [lia|exact Hf].
          - apply (Hhigh j); [lia|exact Hf]. }
        repeat split; auto; lia.
    + assert (low = high) by lia. subst. simpl. repeat split; auto.
Qed.

End Search.

(** Every round halves the interval: an interval shorter than [2^t]
    takes at most [t] measurements. *)
Lemma search_calls (measure : str -> Q) (maxWidth : Q) (trimmed : str) :
  forall fuel t low high calls,
    high - low < 2 ^ t ->
    snd (search measure maxWidth trimmed fuel low high calls) <= calls + t.
Proof.
  induction fuel as [|fuel IH]; intros t low high calls Hd.
  - simpl. lia.
  - cbn [search]. destruct (Nat.ltb_spec low high) as [Hlt|Hge];
      [|simpl; lia].
    destruct t as [|t]; [simpl in Hd; lia|].
    destruct (mid_bounds low high Hlt) as [[Hm1 Hm2] [Hm3 Hm4]].
    set (mid := (low + high + 1) / 2) in *.
    cbn [Nat.pow] in Hd.
    destruct (Qle_bool _ maxWidth).
    + specialize (IH t mid high (S calls)). lia.
    + specialize (IH t low (mid - 1) (S calls)). lia.
Qed.

Lemma length_lt_pow (n : nat) : n < 2 ^ S (Nat.log2 n).
Proof.
  destruct n as [|n]; [simpl; lia|].
  apply Nat.log2_spec. lia.
Qed.

(** The heuristic width grows with the length. *)
Lemma heuristic_monotone (f : Font) :
  (0 <= fontSize f)%Q -> monotoneWidth (heuristicWidth f).
Proof.
  intros Hf a b. unfold heuristicWidth.
  apply Qmult_le_compat_r; [|discriminate].
  apply Qmult_le_compat_r; [|exact Hf].
  rewrite <- Zle_Qle. rewrite !length_app. lia.
Qed.

End EllipsisFacts.

(** ** Claims on ellipsis truncation *)

Module EllipsisClaims.
Import JsString Metrics Properties StringFacts WrapFacts OnDotNetLive.
Import EllipsisFacts.

(** C5, as stated, fails.  With a width of 52.8 per code unit (the
    heuristic width at the 88 pixels of the title font) and a budget of
    four code units, [ab cd] is cut to [ab] and the ellipsis, although
    the longer prefix [ab ] with the ellipsis is within the budget: the
    code takes the white space off the end of the prefix.  And with a
    budget below the width of the ellipsis itself the result, the bare
    ellipsis, is wider than the budget. *)
Lemma ellipsize_not_largest_prefix :
  let measure := heuristicWidth titleFont in
  (~ fits measure (2112 # 10) (lit "ab cd")
   /\ ellipsizeToWidth (Some heuristicWidth) (lit "ab cd") (2112 # 10)
      = lit "ab" ++ [ELLIPSIS]
   /\ fits measure (2112 # 10) (lit "ab " ++ [ELLIPSIS]))
  /\ (~ fits measure 50 (lit "Hello")
      /\ ellipsizeToWidth (Some heuristicWidth) (lit "Hello") 50
         = [ELLIPSIS]
      /\ ~ fits measure 50
             (ellipsizeToWidth (Some heuristicWidth) (lit "Hello") 50)).
Proof.
  cbv zeta. unfold fits.
  split; (split; [|split]).
  - apply Qlt_not_le. vm_compute. reflexivity.
  - vm_compute. reflexivity.
  - vm_compute. discriminate.
  - apply Qlt_not_le. vm_compute. reflexivity.
  - vm_compute. reflexivity.
  - apply Qlt_not_le. vm_compute. reflexivity.
Qed.

(** C5, amended: let the measured width never shrink when a text is
    extended, and let the ellipsis alone be within the budget.  For a
    text that overflows the budget, [ellipsizeToWidth] returns, for the
    largest length [k] whose candidate is within the budget, that
    candidate: the first [k] code units of the trimmed text, without
    white space at their end, followed by the ellipsis.  The result is
    within the budget; for no greater length is the candidate, or the
    plain prefix with the ellipsis, within it; and the function measures
    at most [log2 n + 2] texts, [n] being the length of the trimmed
    text. *)
Theorem ellipsize_largest_fitting_candidate :
  forall (ctx : Ctx) (text : str) (maxWidth : Q),
    (0 < maxWidth)%Q -> text <> [] ->
    ~ fits (ctx titleFont) maxWidth text ->
    monotoneWidth (ctx titleFont) ->
    fits (ctx titleFont) maxWidth [ELLIPSIS] ->
    exists k,
      k <= length (trim text)
      /\ ellipsizeToWidth (Some ctx) text maxWidth
         = candidate (trim text) k
      /\ fits (ctx titleFont) maxWidth
           (ellipsizeToWidth (Some ctx) text maxWidth)
      /\ (forall j,
            k < j <= length (trim text) ->
            ~ fits (ctx titleFont) maxWidth (candidate (trim text) j)
            /\ ~ fits (ctx titleFont) maxWidth
                   (slice0 (trim text) j ++ [ELLIPSIS]))
      /\ snd (ellipsizeCounting (Some ctx) text maxWidth)
         <= Nat.log2 (length (trim text)) + 2.
Proof.
  intros ctx text maxWidth HW Htext Hover Hmono Hell.
  assert (E0 : Qle_bool maxWidth 0 = false).
  { destruct (Qle_bool maxWidth 0) eqn:E; [|reflexivity].
    apply Qle_bool_iff in E. exfalso. apply (Qlt_not_le _ _ HW E). }
  assert (E1 : Qle_bool (ctx titleFont text) maxWidth = false).
  { destruct (Qle_bool (ctx titleFont text) maxWidth) eqn:E; [|reflexivity].
    apply Qle_bool_iff in E. contradiction. }
  set (trimmed := trim text).
  pose proof (search_correct (ctx titleFont) maxWidth trimmed Hmono
                (length trimmed) 0 (length trimmed) 1
                (Nat.le_0_l _) (Nat.le_refl _)) as Hs.
  pose proof (search_calls (ctx titleFont) maxWidth trimmed
                (length trimmed) (S (Nat.log2 (length trimmed)))
                0 (length trimmed) 1) as Hc.
  assert (Eres : ellipsizeCounting (Some ctx) text maxWidth
                 = (candidate trimmed
                      (fst (fst (search (ctx titleFont) maxWidth trimmed
                                   (length trimmed) 0 (length trimmed) 1))),
                    snd (search (ctx titleFont) maxWidth trimmed
                           (length trimmed) 0 (length trimmed) 1))).
  { unfold ellipsizeCounting. destruct text; [congruence|].
    cbn [isEmpty orb]. rewrite E0, E1. fold trimmed.
    destruct (search _ _ _ _ _ _ _) as [[l h] n]. reflexivity. }
  destruct Hs as [_ [Hrange [Hfit Hmax]]].
  { lia. }
  { exact Hell. }
  { intros j Hj. lia. }
  unfold ellipsizeToWidth. rewrite Eres. cbn [fst snd].
  set (k := fst (fst (search (ctx titleFont) maxWidth trimmed
                        (length trimmed) 0 (length trimmed) 1))) in *.
  exists k. split; [lia|]. split; [reflexivity|]. split; [exact Hfit|].
  split.
  - intros j Hj. split; [now apply Hmax|].
    intros Hf. apply (Hmax j Hj). unfold candidateFits, fits in *.
    eapply Qle_trans; [|exact Hf].
    now apply candidate_le_prefix.
  - rewrite Nat.sub_0_r in Hc.
    specialize (Hc (length_lt_pow _)). lia.
Qed.

Lemma ellipsize_largest_fitting_candidate_witness :
  exists k,
    k <= length (trim (lit "ab cd"))
    /\ ellipsizeToWidth (Some heuristicWidth) (lit "ab cd") (2112 # 10)
       = candidate (trim (lit "ab cd")) k
    /\ fits (heuristicWidth titleFont) (2112 # 10)
         (ellipsizeToWidth (Some heuristicWidth) (lit "ab cd") (2112 # 10))
    /\ (forall j,
          k < j <= length (trim (lit "ab cd")) ->
          ~ fits (heuristicWidth titleFont) (2112 # 10)
              (candidate (trim (lit "ab cd")) j)
          /\ ~ fits (heuristicWidth titleFont) (2112 # 10)
                 (slice0 (trim (lit "ab cd")) j ++ [ELLIPSIS]))
    /\ snd (ellipsizeCounting (Some heuristicWidth) (lit "ab cd")
              (2112 # 10))
       <= Nat.log2 (length (trim (lit "ab cd"))) + 2.
Proof.
  apply (ellipsize_largest_fitting_candidate heuristicWidth (lit "ab cd")
           (2112 # 10)).
  - reflexivity.
  - vm_compute. discriminate.
  - apply Qlt_not_le. vm_compute. reflexivity.
  - apply heuristic_monotone. vm_compute. discriminate.
  - unfold fits. vm_compute. discriminate.
Defined.

End EllipsisClaims.

(** ** Layout *)

Module LayoutFacts.
Import JsString Metrics SvgUtils Properties StringFacts BlogLayout.

Local Open Scope Q_scope.

(** *** Doubling *)

Lemma double_plus (a b a' b' : Q) :
  a' == 2 * a -> b' == 2 * b -> a' + b' == 2 * (a + b).
Proof. intros -> ->. ring. Qed.

Lemma double_minus (a b a' b' : Q) :
  a' == 2 * a -> b' == 2 * b -> a' - b' == 2 * (a - b).
Proof. intros -> ->. ring. Qed.

Lemma double_mult_l (c a a' : Q) : a' == 2 * a -> c * a' == 2 * (c * a).
Proof. intros ->. ring. Qed.

Lemma double_mult_r (c a a' : Q) : a' == 2 * a -> a' * c == 2 * (a * c).
Proof. intros ->. ring. Qed.

Lemma double_div (c a a' : Q) : a' == 2 * a -> a' / c == 2 * (a / c).
Proof. intros ->. unfold Qdiv. ring. Qed.

Lemma double_max (a b a' b' : Q) :
  a' == 2 * a -> b' == 2 * b -> Qmax a' b' == 2 * Qmax a b.
Proof.
  intros Ha Hb. rewrite Ha, Hb.
  destruct (Q.max_spec a b) as [[H1 H2]|[H1 H2]];
    destruct (Q.max_spec (2 * a) (2 * b)) as [[H3 H4]|[H3 H4]];
    rewrite H2, H4; lra.
Qed.

Lemma double_min (a b a' b' : Q) :
  a' == 2 * a -> b' == 2 * b -> Qmin a' b' == 2 * Qmin a b.
Proof.
  intros Ha Hb. rewrite Ha, Hb.
  destruct (Q.min_spec a b) as [[H1 H2]|[H1 H2]];
    destruct (Q.min_spec (2 * a) (2 * b)) as [[H3 H4]|[H3 H4]];
    rewrite H2, H4; lra.
Qed.


(** Proves that an expression at the doubled resolution is twice the
    expression at the resolution itself, following its structure down to
    the width and the height. *)
Ltac dbl :=
  first
    [ assumption
    | unfold Qdiv; ring
    | apply double_min; dbl
    | apply double_max; dbl
    | apply double_plus; dbl
    | apply double_minus; dbl
    | apply double_div; dbl
    | apply double_mult_r; dbl
    | apply double_mult_l; dbl ].




(** *** Case analysis on a rational geometry *)

Ltac is_simple t :=
  lazymatch t with
  | context [Qmax _ _] => fail
  | context [Qmin _ _] => fail
  | context [Qdiv _ _] => fail
  | _ => idtac
  end.

(** Names every quotient, minimum and maximum of the goal, innermost
    first, keeping what defines it as a hypothesis. *)
Ltac q_abstract :=
  repeat match goal with
    | |- context [Qdiv ?a ?b] =>
        is_simple a; is_simple b;
        let q := fresh "q" in
        let Hq := fresh "Hq" in
        assert (Hq : b * (a / b) == a) by (field; vm_compute; discriminate);
        set (q := a / b) in *; clearbody q
    | |- context [Qmax ?a ?b] =>
        is_simple a; is_simple b;
        let m := fresh "m" in
        destruct (Q.max_spec a b) as [[? ?]|[? ?]];
        set (m := Qmax a b) in *; clearbody m
    | |- context [Qmin ?a ?b] =>
        is_simple a; is_simple b;
        let m := fresh "m" in
        destruct (Q.min_spec a b) as [[? ?]|[? ?]];
        set (m := Qmin a b) in *; clearbody m
    end.

Ltac q_solve := q_abstract; unfold inject_Z in *; lra.

(** *** Rounding slack *)

Lemma roundingSlack_nonneg (W H : Q) : 0 <= roundingSlack W H.
Proof.
  unfold roundingSlack.
  pose proof (Qabs_nonneg W). pose proof (Qabs_nonneg H).
  apply Qle_shift_div_l; [reflexivity|]. lra.
Qed.

Lemma upTo_eq (slack a b : Q) : 0 <= slack -> a == b -> upTo slack a b.
Proof.
  intros Hs E. unfold upTo.
  setoid_replace (a - b) with 0 by (rewrite E; ring). exact Hs.
Qed.

Ltac layout_cbn :=
  unfold generateSvg in *;
  cbn [logoCount pill title subtitle Nat.ltb Nat.leb Nat.eqb logoStack
       logoCircleRadius logoSpacing logoStartY logoBaseX logoStaggerX
       logoEdgeMarginY logoRightMargin logoGap scale andb] in *;
  unfold ofNat in *; cbn [Z.of_nat Pos.of_succ_nat Pos.succ] in *.

End LayoutFacts.

(** ** Claims on the layout *)

Module LayoutClaims.
Import JsString Metrics SvgUtils Properties StringFacts BlogLayout.
Import LayoutFacts.

Local Open Scope Q_scope.

Lemma inject_Z_pos (z : Z) : (0 < z)%Z -> 0 < inject_Z z.
Proof. intros H. unfold Qlt. simpl. lia. Qed.

(** The logo part of the geometry for one, two and three logos; the
    text fields and the measuring context play no part in it. *)
Lemma logo_circles_case (ctx : option Ctx) (W H : Q) (t s p : str)
  (n : nat) :
  0 < W -> 0 < H -> (1 <= n <= 3)%nat ->
  let g := generateSvg ctx W H (mkFields t s p n) in
  radiusBounded g
  /\ noOverlap g H n
  /\ staggerInsideCanvas g W n
  /\ (tallEnough g H n -> withinVerticalMargins g H n)
  /\ (roomForGaps g H n -> 0 <= logoCircleRadius g).
Proof.
  intros HW HH Hn g. subst g.
  destruct n as [|[|[|[|n]]]]; try lia.
  all: repeat split.
  all: unfold radiusBounded, noOverlap, staggerInsideCanvas, tallEnough,
         withinVerticalMargins, roomForGaps, logoY, logoX in *.
  all: intros.
  all: try match goal with
         | Hi : (_ < _)%nat |- _ =>
             match type of Hi with
             | (S ?i < _)%nat => destruct i as [|[|i]]; try lia
             | (?i < _)%nat => destruct i as [|[|[|i]]]; try lia
             end
         end.
  all: layout_cbn.
  all: try discriminate.
  all: q_solve.
Qed.

(** At a parsed resolution the first, second and fourth part of the
    statement hold for one, two and three logos. *)
Lemma logo_circles_parsed (ctx : option Ctx) (resolution : JsValue.value)
  (t s p : str) (n : nat) :
  (1 <= n <= 3)%nat ->
  let w := Z.of_N (fst (parseResolution resolution)) in
  let h := Z.of_N (snd (parseResolution resolution)) in
  let g := generateSvgAt ctx w h (mkFields t s p n) in
  radiusBounded g
  /\ noOverlap g (inject_Z h) n
  /\ staggerInsideCanvas g (inject_Z w) n.
Proof.
  intros Hn w h g.
  destruct (ResolutionFacts.parseResolution_positive resolution)
    as [Hw Hh].
  destruct (logo_circles_case ctx (inject_Z w) (inject_Z h) t s p n)
    as [H1 [H2 [H3 _]]]; auto.
  - apply inject_Z_pos. subst w. lia.
  - apply inject_Z_pos. subst h. lia.
Qed.

(** C6, as stated, fails on a canvas that is wide and low.  A single
    logo is drawn with the reference radius around [0.48 * height]
    whatever the height: at 1920 by 400 its circle starts at -13, above
    the top margin of 55.  And a stack of two at 1920 by 100, where the
    margins alone exceed the height, ends below the bottom margin. *)
Lemma logo_circles_leave_margins :
  ~ logoCirclesFit (generateSvgAt None 1920 400 (mkFields [] [] [] 1))
      1920 400 1
  /\ ~ logoCirclesFit (generateSvgAt None 1920 100 (mkFields [] [] [] 2))
         1920 100 2.
Proof.
  split.
  - intros [_ [_ [Hm _]]]. destruct (Hm 0%nat) as [Htop _]; [lia|].
    vm_compute in Htop. apply Htop. reflexivity.
  - intros [_ [_ [Hm _]]]. destruct (Hm 1%nat) as [_ Hbot]; [lia|].
    vm_compute in Hbot. apply Hbot. reflexivity.
Qed.

Lemma withinVerticalMargins_upTo (slack : Q) (g : Geometry) (H : Q)
  (n : nat) :
  0 <= slack -> withinVerticalMargins g H n ->
  withinVerticalMarginsUpTo slack g H n.
Proof.
  intros Hs Hm i Hi. destruct (Hm i Hi) as [Htop Hbot]. split; lra.
Qed.

(** C6, amended: for one, two or three logos and every resolution of
    positive width and height, the radius of the circles is at most
    [205 * scale], and with three logos the staggered middle circle
    ends at or before the right margin.  Circles that follow each other
    in the stack do not overlap, their centres being a diameter and the
    gap apart, as long as the gap is not below the rounding slack of the
    canvas.  The circles lie within the top and bottom margins, up to
    the rounding slack, when the canvas is tall enough: for a stack,
    when the height is at least the two margins; for a single logo,
    which is always drawn with the reference radius around
    [0.48 * height], when [0.48 * height] is at least [260 * scale].
    The radius of a stack is not negative, up to the rounding slack,
    when the span between the margins holds its gaps. *)
Theorem logo_circles_fit :
  forall (ctx : option Ctx) (w h : Z) (f : Fields),
    (0 < w)%Z -> (0 < h)%Z -> (1 <= logoCount f <= 3)%nat ->
    let g := generateSvgAt ctx w h f in
    radiusBounded g
    /\ staggerInsideCanvas g (inject_Z w) (logoCount f)
    /\ (roundingSlack (inject_Z w) (inject_Z h) <= logoGap g ->
        noOverlap g (inject_Z h) (logoCount f))
    /\ (tallEnough g (inject_Z h) (logoCount f) ->
        withinVerticalMarginsUpTo
          (roundingSlack (inject_Z w) (inject_Z h))
          g (inject_Z h) (logoCount f))
    /\ (roomForGaps g (inject_Z h) (logoCount f) ->
        0 - roundingSlack (inject_Z w) (inject_Z h) <= logoCircleRadius g).
Proof.
  intros ctx w h [t s p n] Hw Hh Hn g. cbn [logoCount] in *.
  pose proof (roundingSlack_nonneg (inject_Z w) (inject_Z h)) as Hslack.
  destruct (logo_circles_case ctx (inject_Z w) (inject_Z h) t s p n
              (inject_Z_pos w Hw) (inject_Z_pos h Hh) Hn)
    as [H1 [H2 [H3 [H4 H5]]]].
  subst g. unfold generateSvgAt.
  split; [exact H1|]. split; [exact H3|]. split; [intros _; exact H2|].
  split; [|intros Hroom; specialize (H5 Hroom); lra].
  intros Htall. apply withinVerticalMargins_upTo;
    [exact Hslack|now apply H4].
Qed.

Lemma logo_circles_fit_witness :
  let g := generateSvgAt None 1366 768 (mkFields (lit "Title") [] [] 3) in
  noOverlap g (inject_Z 768) 3
  /\ withinVerticalMarginsUpTo (roundingSlack (inject_Z 1366) (inject_Z 768))
       g (inject_Z 768) 3.
Proof.
  pose proof (logo_circles_fit None 1366 768
                (mkFields (lit "Title") [] [] 3)
                eq_refl eq_refl ltac:(simpl; lia)) as H.
  cbv zeta in H. destruct H as [_ [_ [Hover [Hfit _]]]]. split.
  - apply Hover. vm_compute. discriminate.
  - apply Hfit. unfold tallEnough. vm_compute. discriminate.
Defined.


(** *** Scaling *)










End LayoutClaims.

(* ================================================================== *)
(** * Further properties of the code *)
(* ================================================================== *)

(** ** Escaping of text for XML *)

Module EscapingFacts.
Import JsString SvgTemplateProcessor Properties StringFacts TemplateFacts.
Import Escaping.

(** A global replacement of one code unit by a text without a dollar
    sign rewrites the text code unit by code unit. *)
Lemma replaceScan_char (c : codeunit) (rep whole : str) :
  dollarFree rep ->
  forall s pos,
    replaceScan [c] rep whole pos 0 s
    = flat_map (fun x => if N.eqb c x then rep else [x]) s.
Proof.
  intros Hrep. induction s as [|x r IH]; intros pos; [reflexivity|].
  cbn [replaceScan startsWith flat_map length Nat.sub].
  rewrite andb_true_r. destruct (N.eqb c x).
  - rewrite getSubstitution_dollarFree by exact Hrep. now rewrite IH.
  - cbn [app]. now rewrite IH.
Qed.

Lemma replaceGlobal_char (c : codeunit) (rep s : str) :
  dollarFree rep ->
  replaceGlobal [c] rep s
  = flat_map (fun x => if N.eqb c x then rep else [x]) s.
Proof. intros H. apply replaceScan_char, H. Qed.

Lemma flat_map_compose (f g : codeunit -> str) (s : str) :
  flat_map g (flat_map f s) = flat_map (fun x => flat_map g (f x)) s.
Proof.
  induction s as [|x r IH]; [reflexivity|].
  cbn [flat_map]. now rewrite flat_map_app, IH.
Qed.

Ltac dollar_free := unfold dollarFree; vm_compute; intuition discriminate.

(** The five passes together, on any text. *)
Lemma passes_flat_map (s : str) :
  replaceGlobal [QUOTE] (lit "&apos;")
    (replaceGlobal [DQUOTE] (lit "&quot;")
       (replaceGlobal [GT] (lit "&gt;")
          (replaceGlobal [LT] (lit "&lt;")
             (replaceGlobal [AMP] (lit "&amp;") s))))
  = flat_map escapeChar s.
Proof.
  rewrite !replaceGlobal_char by dollar_free.
  rewrite !flat_map_compose.
  apply flat_map_ext. intros x. unfold escapeChar.
  rewrite (N.eqb_sym x AMP), (N.eqb_sym x LT), (N.eqb_sym x GT),
    (N.eqb_sym x DQUOTE), (N.eqb_sym x QUOTE).
  destruct (N.eqb_spec AMP x) as [<-|H1]; [reflexivity|].
  cbn [flat_map app].
  destruct (N.eqb_spec LT x) as [<-|H2]; [reflexivity|].
  cbn [flat_map app].
  destruct (N.eqb_spec GT x) as [<-|H3]; [reflexivity|].
  cbn [flat_map app].
  destruct (N.eqb_spec DQUOTE x) as [<-|H4]; [reflexivity|].
  cbn [flat_map app].
  destruct (N.eqb_spec QUOTE x) as [<-|H5]; reflexivity.
Qed.

Lemma escapeXml_flat_map (s : str) : escapeXml s = flat_map escapeChar s.
Proof.
  unfold escapeXml. destruct s as [|c r]; [reflexivity|].
  cbn [isEmpty]. apply passes_flat_map.
Qed.

(** What [escapeChar] gives: an entity for one of the five code units,
    the code unit otherwise. *)
Lemma escapeChar_cases (c : codeunit) :
  (c = AMP /\ escapeChar c = AMP :: lit "amp;")
  \/ (c = LT /\ escapeChar c = AMP :: lit "lt;")
  \/ (c = GT /\ escapeChar c = AMP :: lit "gt;")
  \/ (c = DQUOTE /\ escapeChar c = AMP :: lit "quot;")
  \/ (c = QUOTE /\ escapeChar c = AMP :: lit "apos;")
  \/ (c <> AMP /\ c <> LT /\ c <> GT /\ c <> DQUOTE /\ c <> QUOTE
      /\ escapeChar c = [c]).
Proof.
  unfold escapeChar.
  destruct (N.eqb_spec c AMP); [now left|].
  destruct (N.eqb_spec c LT); [now right; left|].
  destruct (N.eqb_spec c GT); [now right; right; left|].
  destruct (N.eqb_spec c DQUOTE); [now right; right; right; left|].
  destruct (N.eqb_spec c QUOTE); [now right; right; right; right; left|].
  right; right; right; right; right. tauto.
Qed.

(** The encoding is a prefix code. *)
Lemma escapeChar_cancel (x y : codeunit) (r r' : str) :
  escapeChar x ++ r = escapeChar y ++ r' -> x = y /\ r = r'.
Proof.
  destruct (escapeChar_cases x)
    as [[-> ->]|[[-> ->]|[[-> ->]|[[-> ->]|[[-> ->]|(X1&X2&X3&X4&X5&->)]]]]];
  destruct (escapeChar_cases y)
    as [[-> ->]|[[-> ->]|[[-> ->]|[[-> ->]|[[-> ->]|(Y1&Y2&Y3&Y4&Y5&->)]]]]];
  cbn; intros H; try discriminate H;
  try (injection H as H; subst; try congruence; split; reflexivity || congruence).
Qed.

Lemma flat_map_escape_inj (a : str) :
  forall b, flat_map escapeChar a = flat_map escapeChar b -> a = b.
Proof.
  induction a as [|x a IH]; intros [|y b] H.
  - reflexivity.
  - cbn [flat_map] in H.
    destruct (escapeChar_cases y)
      as [[_ E]|[[_ E]|[[_ E]|[[_ E]|[[_ E]|(_&_&_&_&_&E)]]]]];
      rewrite E in H; discriminate H.
  - cbn [flat_map] in H.
    destruct (escapeChar_cases x)
      as [[_ E]|[[_ E]|[[_ E]|[[_ E]|[[_ E]|(_&_&_&_&_&E)]]]]];
      rewrite E in H; discriminate H.
  - cbn [flat_map] in H. apply escapeChar_cancel in H as [-> H].
    f_equal. now apply IH.
Qed.

End EscapingFacts.

Module EscapingTheorems.
Import JsString SvgTemplateProcessor Properties StringFacts TemplateFacts.
Import Escaping EscapingFacts.

(** X1 (escapeXml): the five replacement passes never escape what an
    earlier pass wrote: the result is the text with each of the five
    special code units replaced by its entity and every other code unit
    kept, so escaping a concatenation is concatenating the escapes. *)
Theorem escapeXml_char_by_char :
  forall s t : str,
    escapeXml s = flat_map escapeChar s
    /\ escapeXml (s ++ t) = escapeXml s ++ escapeXml t.
Proof.
  intros s t. split; [apply escapeXml_flat_map|].
  rewrite !escapeXml_flat_map. apply flat_map_app.
Qed.

(** X2 (escapeXml): the escaped text has no angle bracket and no quote,
    and each ampersand in it begins one of the five entities. *)
Theorem escapeXml_markupFree :
  forall s : str, markupFree (escapeXml s).
Proof.
  intros s. rewrite escapeXml_flat_map. split.
  - intros c Hin. apply in_flat_map in Hin as (x & _ & Hx).
    destruct (escapeChar_cases x)
      as [[_ E]|[[_ E]|[[_ E]|[[_ E]|[[_ E]|(X1&X2&X3&X4&X5&E)]]]]];
      rewrite E in Hx; cbn in Hx;
      repeat (destruct Hx as [<-|Hx];
              [repeat split; (discriminate || assumption)|]);
      destruct Hx.
  - induction s as [|x s IH]; intros a b H.
    + destruct a; discriminate H.
    + cbn [flat_map] in H.
      destruct (escapeChar_cases x)
        as [[_ E]|[[_ E]|[[_ E]|[[_ E]|[[_ E]|(X1&_&_&_&_&E)]]]]];
        rewrite E in H; cbn in H.
      1-5: destruct a as [|c0 a];
        [ injection H as H; subst b;
          first [ exists (lit "amp;"); split; [cbn; tauto|reflexivity]
                | exists (lit "lt;"); split; [cbn; tauto|reflexivity]
                | exists (lit "gt;"); split; [cbn; tauto|reflexivity]
                | exists (lit "quot;"); split; [cbn; tauto|reflexivity]
                | exists (lit "apos;"); split; [cbn; tauto|reflexivity] ]
        | injection H as _ H;
          repeat (destruct a as [|? a];
                  [discriminate H|injection H as _ H]);
          exact (IH _ _ H) ].
      destruct a as [|c0 a]; injection H as Hx H; [congruence|].
      exact (IH _ _ H).
Qed.

(** X3 (escapeXml): escaping loses nothing: two texts with the same
    escaped form are the same text. *)
Theorem escapeXml_injective :
  forall s t : str, escapeXml s = escapeXml t -> s = t.
Proof.
  intros s t. rewrite !escapeXml_flat_map. apply flat_map_escape_inj.
Qed.

Lemma escapeXml_injective_witness :
  lit "a<b" = lit "a<b".
Proof.
  exact (escapeXml_injective (lit "a<b") (lit "a<b") eq_refl).
Defined.

End EscapingTheorems.

(** ** Lines produced by the wrapping functions *)

Module LineFacts.
Import JsString Metrics SvgUtils Properties StringFacts WrapFacts WrapClaims.
Import LineProperties.

Lemma splitChar_no_separator (c : codeunit) (s : str) :
  Forall (fun w => ~ In c w) (splitChar c s).
Proof.
  induction s as [|x r IH]; simpl.
  - constructor; [intros []|constructor].
  - destruct (N.eqb_spec x c) as [->|Hx].
    + constructor; [intros []|exact IH].
    + destruct (splitChar c r) as [|w ws].
      * constructor; [|constructor]. intros [H|[]]. congruence.
      * inversion IH as [|? ? Hw Hws]; subst.
        constructor; [|exact Hws].
        intros [H|H]; [congruence|now apply Hw].
Qed.

Lemma splitWsFrom_wsFree (s : str) :
  forall b, Forall wsFree (splitWsFrom b s).
Proof.
  induction s as [|x r IH]; intros b; simpl.
  - constructor; [intros c []|constructor].
  - destruct (isWhiteSpace x) eqn:E.
    + destruct b; [apply IH|].
      constructor; [intros c []|apply IH].
    + specialize (IH false). destruct (splitWsFrom false r) as [|w ws].
      * constructor; [|constructor]. intros c [Hc|[]]. now subst c.
      * inversion IH as [|? ? Hw Hws]; subst.
        constructor; [|exact Hws].
        intros c [Hc|Hc]; [now subst c|now apply Hw].
Qed.

Lemma Forall_pushLine (P : str -> Prop) (lines : list str) (cur : str) :
  Forall P lines -> (cur = [] \/ P cur) -> Forall P (pushLine lines cur).
Proof.
  intros Hl Hc. unfold pushLine. destruct cur as [|c cur]; [exact Hl|].
  cbn [nonEmpty isEmpty negb]. apply Forall_app. split; [exact Hl|].
  constructor; [|constructor]. destruct Hc as [Hc|Hc]; [discriminate|exact Hc].
Qed.

Lemma wrapText_inv (maxChars : Z) :
  forall words lines cur,
    Forall (fun w => ~ In SPACE w) words ->
    Forall (withinChars maxChars) lines ->
    cur = [] \/ withinChars maxChars cur ->
    Forall (withinChars maxChars)
      (fst (fold_left (wrapTextStep maxChars) words (lines, cur)))
    /\ (snd (fold_left (wrapTextStep maxChars) words (lines, cur)) = []
        \/ withinChars maxChars
             (snd (fold_left (wrapTextStep maxChars) words (lines, cur)))).
Proof.
  induction words as [|word rest IH]; intros lines cur Hw Hl Hc.
  - simpl. auto.
  - inversion Hw as [|? ? Hword Hrest]; subst.
    cbn [fold_left]. unfold wrapTextStep at 2 4 6.
    destruct (Z.of_nat (length (trim (cur ++ SPACE :: word))) <=? maxChars)%Z
      eqn:E.
    + apply IH; [exact Hrest|exact Hl|].
      destruct (trim (cur ++ SPACE :: word)) as [|c t] eqn:Et; [now left|].
      right. split; [discriminate|]. left. now apply Z.leb_le.
    + apply IH; [exact Hrest|now apply Forall_pushLine|].
      destruct word as [|c w]; [now left|].
      right. split; [discriminate|]. now right.
Qed.

Lemma wrapWidth_inv (measure : str -> Q) (maxWidth : Q) :
  forall words lines cur,
    Forall (fun w => w <> [] /\ wsFree w) words ->
    Forall (withinWidth measure maxWidth) lines ->
    cur = [] \/ withinWidth measure maxWidth cur ->
    Forall (withinWidth measure maxWidth)
      (fst (fold_left (wrapWidthStep measure maxWidth) words (lines, cur)))
    /\ (snd (fold_left (wrapWidthStep measure maxWidth) words (lines, cur))
        = []
        \/ withinWidth measure maxWidth
             (snd (fold_left (wrapWidthStep measure maxWidth) words
                     (lines, cur)))).
Proof.
  induction words as [|word rest IH]; intros lines cur Hw Hl Hc.
  - simpl. auto.
  - inversion Hw as [|? ? [Hne Hword] Hrest]; subst.
    cbn [fold_left]. unfold wrapWidthStep at 2 4 6.
    set (next := if nonEmpty cur then cur ++ SPACE :: word else word).
    destruct (Qle_bool (measure next) maxWidth) eqn:E.
    + apply IH; [exact Hrest|exact Hl|].
      right. split.
      * subst next. destruct cur; cbn [nonEmpty isEmpty negb];
          [exact Hne|discriminate].
      * left. now apply Qle_bool_iff.
    + apply IH; [exact Hrest|now apply Forall_pushLine|].
      right. split; [exact Hne|now right].
Qed.

Lemma wrapTextToWidth_within (text : str) (maxWidth : Q) (c : Ctx)
  (f : Font) :
  (0 < maxWidth)%Q ->
  Forall (withinWidth (c f) maxWidth)
    (wrapTextToWidth text maxWidth (Some c) (Some f)).
Proof.
  intros HW. unfold wrapTextToWidth.
  destruct (isEmpty text); [constructor|].
  destruct (Qle_bool maxWidth 0) eqn:E.
  { apply Qle_bool_iff in E. exfalso. apply (Qlt_not_le _ _ HW E). }
  assert (Hw : Forall (fun w => w <> [] /\ wsFree w)
                 (filter nonEmpty (splitWs text))).
  { apply Forall_forall. intros w Hin.
    apply filter_In in Hin as [Hin Hne]. split; [now apply nonEmpty_true|].
    pose proof (splitWsFrom_wsFree text false) as Hall.
    rewrite Forall_forall in Hall. now apply Hall. }
  destruct (wrapWidth_inv (c f) maxWidth _ [] [] Hw (Forall_nil _)
              (or_introl eq_refl)) as [Hl Hc].
  destruct (fold_left _ _ _) as [lines cur]. cbn [fst snd] in *.
  now apply Forall_pushLine.
Qed.

(** While the text read so far is within the budget, the loop of
    [wrapText] commits no line. *)
Lemma wrapText_one_line (maxChars : Z) :
  (0 <= maxChars)%Z ->
  forall words cur,
    Forall wsFree words -> tidy cur ->
    (Z.of_nat (length (spaced (pushLine [] cur)
                        ++ spaced (filter nonEmpty words)))
     <= maxChars + 1)%Z ->
    fst (fold_left (wrapTextStep maxChars) words ([], cur)) = [].
Proof.
  intros H0.
  induction words as [|word rest IH]; intros cur Hw Hcur Hlen;
    [reflexivity|].
  inversion Hw as [|? ? Hword Hrest]; subst.
  cbn [fold_left]. unfold wrapTextStep at 2.
  pose proof (tidy_candidate cur word Hcur Hword) as Ht.
  pose proof (trim_candidate cur word Hcur Hword) as Ec.
  change (word :: rest) with ([word] ++ rest) in Hlen.
  rewrite filter_app, spaced_app, spaced_single, app_assoc in Hlen.
  match type of Hlen with
  | context [Datatypes.length (?x ++ _)] =>
      assert (Es : spaced (pushLine [] (trim (cur ++ SPACE :: word))) = x)
  end.
  { rewrite !spaced_pushLine, Ec.
    destruct cur, word; cbn [nonEmpty isEmpty negb spaced flat_map app];
      rewrite ?app_nil_r; reflexivity. }
  rewrite <- Es in Hlen.
  assert (Hc : (Z.of_nat (length (trim (cur ++ SPACE :: word)))
                <= maxChars)%Z).
  { rewrite length_app, spaced_pushLine in Hlen.
    destruct (trim (cur ++ SPACE :: word)) as [|c t];
      cbn [nonEmpty isEmpty negb spaced flat_map app length] in Hlen |- *;
      lia. }
  apply Z.leb_le in Hc. rewrite Hc.
  apply IH; assumption.
Qed.

End LineFacts.

Module LineTheorems.
Import JsString Metrics SvgUtils Properties StringFacts WrapFacts WrapClaims.
Import LineProperties LineFacts.

(** X4 (wrapText): every line that [wrapText] returns is non-empty, and
    it is at most [maxChars] code units long unless it is a single word
    (a piece of the text between two spaces), which is never split. *)
Theorem wrapText_lines_within_budget :
  forall (text : str) (maxChars : Z),
    Forall (withinChars maxChars) (wrapText text maxChars).
Proof.
  intros text maxChars. unfold wrapText.
  destruct (isEmpty text); [constructor|].
  destruct (wrapText_inv maxChars (splitChar SPACE text) [] []
              (splitChar_no_separator SPACE text) (Forall_nil _)
              (or_introl eq_refl)) as [Hl Hc].
  destruct (fold_left _ _ _) as [lines cur]. cbn [fst snd] in *.
  now apply Forall_pushLine.
Qed.

(** X5 (wrapTextToWidth): with a measuring context, a font and a
    positive width, every returned line is non-empty, and it measures at
    most [maxWidth] unless it is a single word without white space. *)
Theorem wrapTextToWidth_lines_within_budget :
  forall (text : str) (maxWidth : Q) (c : Ctx) (f : Font),
    (0 < maxWidth)%Q ->
    Forall (withinWidth (c f) maxWidth)
      (wrapTextToWidth text maxWidth (Some c) (Some f)).
Proof.
  intros text maxWidth c f. apply wrapTextToWidth_within.
Qed.

Lemma wrapTextToWidth_lines_within_budget_witness :
  Forall (withinWidth (heuristicWidth (mkFont 700 10)) 60)
    (wrapTextToWidth (lit "one two  incomprehensibilities") 60
       (Some heuristicWidth) (Some (mkFont 700 10))).
Proof.
  apply (wrapTextToWidth_lines_within_budget
           (lit "one two  incomprehensibilities") 60 heuristicWidth
           (mkFont 700 10)).
  reflexivity.
Defined.

(** X6 (wrapText): a text whose only white space is the space
    character, and whose normalized form is not empty and at most
    [maxChars] long, comes back as the single line of its normalized
    form. *)
Theorem wrapText_short_text_one_line :
  forall (text : str) (maxChars : Z),
    spacesOnly text ->
    normalizeWhitespace text <> [] ->
    (Z.of_nat (length (normalizeWhitespace text)) <= maxChars)%Z ->
    wrapText text maxChars = [normalizeWhitespace text].
Proof.
  intros text maxChars Hs Hne Hlen.
  pose proof (wrapText_keepsWords text maxChars Hs) as Hk.
  unfold keepsWords in Hk. unfold wrapText in *.
  destruct text as [|c text]; [now elim Hne|]. cbn [isEmpty] in *.
  set (words := splitChar SPACE (c :: text)) in *.
  assert (Hn : normalizeWhitespace (c :: text)
               = tl (spaced (filter nonEmpty words))).
  { subst words. rewrite <- join_spaced, (splitChar_words _ Hs).
    symmetry. apply join_words. }
  assert (H0 : (0 <= maxChars)%Z) by lia.
  assert (Hb : (Z.of_nat (length (spaced (pushLine [] [])
                                  ++ spaced (filter nonEmpty words)))
                <= maxChars + 1)%Z).
  { cbn [pushLine nonEmpty isEmpty negb spaced flat_map app].
    rewrite Hn in Hlen, Hne.
    destruct (spaced (filter nonEmpty words)); cbn [tl length] in *;
      [congruence|lia]. }
  pose proof (wrapText_one_line maxChars H0 words []
                (splitChar_wsFree _ Hs) (conj I eq_refl) Hb) as Hone.
  destruct (fold_left _ _ _) as [lines cur]. cbn [fst snd] in Hone.
  subst lines. unfold pushLine in *. destruct cur as [|x cur].
  - cbn [nonEmpty isEmpty negb join] in Hk. now elim Hne.
  - cbn [nonEmpty isEmpty negb app join] in *. now rewrite Hk.
Qed.

Lemma wrapText_short_text_one_line_witness :
  wrapText (lit "  two   words ") 9 = [normalizeWhitespace (lit "  two   words ")].
Proof.
  apply wrapText_short_text_one_line.
  - intros c Hc Hw. vm_compute in Hc.
    repeat (destruct Hc as [<-|Hc]; [reflexivity || discriminate Hw|]).
    destruct Hc.
  - vm_compute. discriminate.
  - vm_compute. discriminate.
Defined.

End LineTheorems.

(** ** Where [wrapTextToWidth] breaks *)

Module GreedyFacts.
Import JsString Metrics SvgUtils Properties StringFacts WrapFacts.
Import LineProperties LineFacts.

Lemma adjacent_snoc (R : str -> str -> Prop) (l : list str) (a b : str) :
  adjacent R (l ++ [a]) -> R a b -> adjacent R ((l ++ [a]) ++ [b]).
Proof.
  intros Hl Hab. induction l as [|x l IH].
  - cbn. auto.
  - change ((x :: l) ++ [a]) with (x :: (l ++ [a])) in *.
    destruct (l ++ [a]) as [|y t] eqn:El.
    + destruct l; discriminate El.
    + cbn [app adjacent] in *. destruct Hl as [Hxy Hl].
      split; [exact Hxy|exact (IH Hl)].
Qed.

Lemma adjacent_last (R : str -> str -> Prop) (l : list str) (b b' : str) :
  adjacent R (l ++ [b]) -> (forall a, R a b -> R a b') ->
  adjacent R (l ++ [b']).
Proof.
  intros Hl Hb. induction l as [|x l IH].
  - exact I.
  - change ((x :: l) ++ [b]) with (x :: (l ++ [b])) in Hl.
    change ((x :: l) ++ [b']) with (x :: (l ++ [b'])).
    destruct l as [|y l].
    + cbn in *. destruct Hl as [Hxb _]. auto.
    + cbn [app adjacent] in *. destruct Hl as [Hxy Hl].
      split; [exact Hxy|exact (IH Hl)].
Qed.

(** A break stays forced when words are added to the line after it. *)
Lemma breakForced_extend (measure : str -> Q) (maxWidth : Q)
  (a b word : str) :
  breakForced measure maxWidth a b ->
  breakForced measure maxWidth a (b ++ SPACE :: word).
Proof.
  intros (w & rest & -> & Hw & Hfree & Hrest & Hover).
  exists w, (rest ++ SPACE :: word). rewrite <- app_assoc.
  split; [reflexivity|]. split; [exact Hw|]. split; [exact Hfree|].
  split; [|exact Hover]. right.
  destruct Hrest as [->|[r ->]]; [now exists word|].
  now exists (r ++ SPACE :: word).
Qed.

(** The state of the loop: nothing is committed before the first word;
    afterwards the current line is not empty and every break so far was
    forced. *)
Lemma wrapWidth_greedy (measure : str -> Q) (maxWidth : Q) :
  forall words lines cur,
    Forall (fun w => w <> [] /\ wsFree w) words ->
    (cur = [] /\ lines = [])
    \/ (cur <> [] /\ adjacent (breakForced measure maxWidth) (lines ++ [cur])) ->
    adjacent (breakForced measure maxWidth)
      (pushLine
         (fst (fold_left (wrapWidthStep measure maxWidth) words (lines, cur)))
         (snd (fold_left (wrapWidthStep measure maxWidth) words
                 (lines, cur)))).
Proof.
  induction words as [|word rest IH]; intros lines cur Hw Hinv.
  - cbn [fold_left fst snd]. destruct Hinv as [[-> ->]|[Hc Hadj]].
    + exact I.
    + unfold pushLine. destruct cur; [congruence|]. exact Hadj.
  - inversion Hw as [|? ? [Hne Hfree] Hrest]; subst.
    cbn [fold_left]. unfold wrapWidthStep at 2 4.
    destruct Hinv as [[-> ->]|[Hc Hadj]].
    + cbn [nonEmpty isEmpty negb pushLine].
      destruct (Qle_bool (measure word) maxWidth);
        (apply IH; [exact Hrest|]); right; (split; [exact Hne|exact I]).
    + destruct cur as [|c0 cur]; [congruence|].
      cbn [nonEmpty isEmpty negb].
      destruct (Qle_bool (measure ((c0 :: cur) ++ SPACE :: word)) maxWidth)
        eqn:E.
      * apply IH; [exact Hrest|]. right. split; [discriminate|].
        apply (adjacent_last _ lines (c0 :: cur)); [exact Hadj|].
        intros a. apply breakForced_extend.
      * apply IH; [exact Hrest|]. right. split; [exact Hne|].
        unfold pushLine. cbn [nonEmpty isEmpty negb].
        apply adjacent_snoc; [exact Hadj|].
        exists word, []. rewrite app_nil_r.
        split; [reflexivity|]. split; [exact Hne|]. split; [exact Hfree|].
        split; [now left|].
        intros Hfit. apply Qle_bool_iff in Hfit. congruence.
Qed.

End GreedyFacts.

Module GreedyTheorems.
Import JsString Metrics SvgUtils Properties StringFacts WrapFacts.
Import LineProperties LineFacts GreedyFacts.

(** X24 (wrapTextToWidth): with a measuring context, a font and a
    positive width, a line ends only where it must: each line after the
    first begins with a word that, put behind the line before it with a
    space between, would have measured more than [maxWidth]. *)
Theorem wrapTextToWidth_breaks_are_forced :
  forall (text : str) (maxWidth : Q) (c : Ctx) (f : Font),
    (0 < maxWidth)%Q ->
    adjacent (breakForced (c f) maxWidth)
      (wrapTextToWidth text maxWidth (Some c) (Some f)).
Proof.
  intros text maxWidth c f HW. unfold wrapTextToWidth.
  destruct (isEmpty text); [exact I|].
  destruct (Qle_bool maxWidth 0) eqn:E.
  { apply Qle_bool_iff in E. exfalso. apply (Qlt_not_le _ _ HW E). }
  assert (Hw : Forall (fun w => w <> [] /\ wsFree w)
                 (filter nonEmpty (splitWs text))).
  { apply Forall_forall. intros w Hin.
    apply filter_In in Hin as [Hin Hne]. split; [now apply nonEmpty_true|].
    pose proof (splitWsFrom_wsFree text false) as Hall.
    rewrite Forall_forall in Hall. now apply Hall. }
  pose proof (wrapWidth_greedy (c f) maxWidth _ [] [] Hw
                (or_introl (conj eq_refl eq_refl))) as H.
  destruct (fold_left _ _ _) as [lines cur]. exact H.
Qed.

Lemma wrapTextToWidth_breaks_are_forced_witness :
  adjacent (breakForced (heuristicWidth (mkFont 700 10)) 60)
    (wrapTextToWidth (lit "one two three four five") 60
       (Some heuristicWidth) (Some (mkFont 700 10))).
Proof.
  apply (wrapTextToWidth_breaks_are_forced (lit "one two three four five")
           60 heuristicWidth (mkFont 700 10)).
  reflexivity.
Defined.

End GreedyTheorems.

(** ** What inlining leaves alone *)

Module InlinerMoreFacts.
Import JsString Inliner StringFacts InlinerFacts InlinerProperties.

(** Every node of the document is found at the same place afterwards,
    processed under its own path. *)
Lemma nodeAt_inlineNode_any (b : Browser) :
  forall path n path0 m,
    nodeAt n path = Some m ->
    nodeAt (inlineNode b path0 n) path
    = Some (inlineNode b (path0 ++ path) m).
Proof.
  induction path as [|i rest IH]; intros n path0 m H.
  - simpl in H. inversion H; subst. now rewrite app_nil_r.
  - destruct n as [nm ats ks|d]; [|discriminate].
    cbn [nodeAt] in H.
    destruct (nth_error ks i) as [k|] eqn:Ek; [|discriminate].
    rewrite inlineNode_Element. cbn [nodeAt].
    rewrite (inlineKids_nth b path0 ks 0 i k Ek). cbn [Nat.add].
    rewrite (IH k (path0 ++ [i]) m H). now rewrite <- app_assoc.
Qed.

Lemma nodeAt_inlineRoot_any (b : Browser) (svg : Node) :
  forall path m,
    path <> [] ->
    nodeAt svg path = Some m ->
    nodeAt (inlineRoot b svg) path = Some (inlineNode b path m).
Proof.
  intros path m Hpath H.
  destruct svg as [nm ats ks|d]; [|destruct path; [congruence|discriminate]].
  pose proof (nodeAt_inlineNode_any b path (Element nm ats ks) [] m H) as E.
  unfold inlineRoot. rewrite inlineNode_Element in *.
  destruct path as [|i rest]; [congruence|].
  cbn [nodeAt] in E |- *. exact E.
Qed.

Lemma inlineImage_embedded (b : Browser) (path : list nat)
  (attrs : list (str * str)) :
  embedded attrs = true -> inlineImage b path attrs = attrs.
Proof.
  unfold embedded, inlineImage. destruct (hrefOf attrs) as [h|]; [|reflexivity].
  now intros ->.
Qed.

(** The callback writes to [href] and [xlink:href] only. *)
Lemma inlineImage_other (b : Browser) (path : list nat)
  (attrs : list (str * str)) (k : str) :
  k <> lit "href" -> k <> lit "xlink:href" ->
  getAttribute k (inlineImage b path attrs) = getAttribute k attrs.
Proof.
  intros H1 H2. unfold inlineImage.
  destruct (hrefOf attrs) as [h|]; [|reflexivity].
  destruct (isEmpty h || startsWith (lit "data:") h); [reflexivity|].
  destruct (resolveURL b h) as [u|]; [|reflexivity].
  destruct (fetch b path u) as [|[|] [d|]]; try reflexivity.
  now rewrite !getAttribute_set_other.
Qed.

Lemma getAttribute_ensure_same (name v : str) (attrs : list (str * str)) :
  getAttribute name (ensureAttribute name v attrs)
  = if lacksAttribute name attrs then Some v else getAttribute name attrs.
Proof.
  unfold ensureAttribute. destruct (lacksAttribute name attrs); [|reflexivity].
  apply getAttribute_set_same.
Qed.

Lemma getAttribute_ensure_other (name name' v : str)
  (attrs : list (str * str)) :
  name <> name' ->
  getAttribute name (ensureAttribute name' v attrs) = getAttribute name attrs.
Proof.
  intros H. unfold ensureAttribute.
  destruct (lacksAttribute name' attrs); [|reflexivity].
  now apply getAttribute_set_other.
Qed.

Lemma ensureAttribute_present (name v : str) (attrs : list (str * str)) :
  lacksAttribute name attrs = false -> ensureAttribute name v attrs = attrs.
Proof. unfold ensureAttribute. now intros ->. Qed.

Lemma inlineKids_length (b : Browser) (path : list nat) (ks : list Node) :
  forall i, length (inlineKids b path i ks) = length ks.
Proof.
  induction ks as [|k ks IH]; intros i; [reflexivity|].
  cbn [inlineKids length]. now rewrite IH.
Qed.

Lemma Node_forall_ind (P : Node -> Prop) :
  (forall name attrs kids, Forall P kids -> P (Element name attrs kids)) ->
  (forall d, P (CharacterData d)) ->
  forall n, P n.
Proof.
  intros HE HC. fix IH 1. intros [name attrs kids|d]; [apply HE|apply HC].
  induction kids as [|k kids IHk]; constructor; [apply IH|exact IHk].
Qed.

(** A tree whose images are all embedded is left as it is, whatever the
    browser answers. *)
Lemma inlineNode_selfContained (b : Browser) :
  forall n path, selfContained n = true -> inlineNode b path n = n.
Proof.
  induction n as [name attrs kids IH|d] using Node_forall_ind;
    intros path H; [|reflexivity].
  rewrite inlineNode_Element. cbn [selfContained] in H.
  apply andb_true_iff in H as [Himg Hkids]. f_equal.
  - destruct (isImage name); [|reflexivity].
    now apply inlineImage_embedded.
  - generalize 0. induction kids as [|k kids IHk]; intros i; [reflexivity|].
    cbn [inlineKids]. cbn [forallb] in Hkids.
    apply andb_true_iff in Hkids as [Hk Hkids].
    inversion IH as [|? ? Hk0 Hrest]; subst.
    rewrite (Hk0 _ Hk). f_equal. now apply IHk.
Qed.

End InlinerMoreFacts.

Module InlinerTheorems.
Import JsString Inliner StringFacts InlinerFacts InlinerProperties Samples.
Import InlinerMoreFacts MoreSamples.

(** X7 (inlineSvgImages): processing changes nothing but the [href] and
    [xlink:href] of images with an external reference, an image being
    an element whose local name is [image], whatever its prefix.  Below
    the root, character data stays as it is; an element stays at its
    place under its name; the attributes of an element that is not an
    image, and of an image without a reference or with a data URL, are
    unchanged; and every other attribute of any image keeps its
    value. *)
Theorem inlineRoot_touches_only_external_images :
  forall (b : Browser) (svg : Node) (path : list nat),
    path <> [] ->
    (forall d,
        nodeAt svg path = Some (CharacterData d) ->
        nodeAt (inlineRoot b svg) path = Some (CharacterData d))
    /\ (forall name attrs kids,
          nodeAt svg path = Some (Element name attrs kids) ->
          exists attrs' kids',
            nodeAt (inlineRoot b svg) path
            = Some (Element name attrs' kids')
            /\ length kids' = length kids
            /\ (localName name <> lit "image" -> attrs' = attrs)
            /\ (embedded attrs = true -> attrs' = attrs)
            /\ (forall k, k <> lit "href" -> k <> lit "xlink:href" ->
                  getAttribute k attrs' = getAttribute k attrs)).
Proof.
  intros b svg path Hpath. split.
  - intros d H. now rewrite (nodeAt_inlineRoot_any b svg path _ Hpath H).
  - intros name attrs kids H.
    rewrite (nodeAt_inlineRoot_any b svg path _ Hpath H).
    rewrite inlineNode_Element. eexists. eexists.
    split; [reflexivity|]. split; [|split; [|split]].
    + apply inlineKids_length.
    + intros Hn. unfold isImage.
      destruct (eqb (localName name) (lit "image")) eqn:E; [|reflexivity].
      apply eqb_eq in E. contradiction.
    + intros He. destruct (isImage name); [|reflexivity].
      now apply inlineImage_embedded.
    + intros k H1 H2. destruct (isImage name); [|reflexivity].
      now apply inlineImage_other.
Qed.

Lemma inlineRoot_touches_only_external_images_witness :
  (forall d,
      nodeAt sampleDocument [0] = Some (CharacterData d) ->
      nodeAt (inlineRoot sampleBrowser sampleDocument) [0]
      = Some (CharacterData d))
  /\ (forall name attrs kids,
        nodeAt sampleDocument [0] = Some (Element name attrs kids) ->
        exists attrs' kids',
          nodeAt (inlineRoot sampleBrowser sampleDocument) [0]
          = Some (Element name attrs' kids')
          /\ length kids' = length kids
          /\ (localName name <> lit "image" -> attrs' = attrs)
          /\ (embedded attrs = true -> attrs' = attrs)
          /\ (forall k, k <> lit "href" -> k <> lit "xlink:href" ->
                getAttribute k attrs' = getAttribute k attrs)).
Proof.
  apply (inlineRoot_touches_only_external_images sampleBrowser
           sampleDocument [0]).
  discriminate.
Defined.

(** X8 (inlineSvgImages): after processing, the root carries a
    non-empty [xmlns] and a non-empty [xmlns:xlink]: a value that was
    there and not empty is kept, a missing or empty one becomes the SVG
    or the XLink namespace; every other attribute of the root keeps its
    value. *)
Theorem inlineRoot_namespaces :
  forall (b : Browser) (name : str) (attrs : list (str * str))
         (kids : list Node),
    let attrs' := attributesOf (inlineRoot b (Element name attrs kids)) in
    getAttribute (lit "xmlns") attrs'
    = (if lacksAttribute (lit "xmlns") attrs then Some svgNamespace
       else getAttribute (lit "xmlns") attrs)
    /\ getAttribute (lit "xmlns:xlink") attrs'
       = (if lacksAttribute (lit "xmlns:xlink") attrs
          then Some xlinkNamespace
          else getAttribute (lit "xmlns:xlink") attrs)
    /\ lacksAttribute (lit "xmlns") attrs' = false
    /\ lacksAttribute (lit "xmlns:xlink") attrs' = false
    /\ (forall k, k <> lit "xmlns" -> k <> lit "xmlns:xlink" ->
          getAttribute k attrs' = getAttribute k attrs).
Proof.
  intros b name attrs kids attrs'.
  assert (E : attrs' = ensureAttribute (lit "xmlns:xlink") xlinkNamespace
                         (ensureAttribute (lit "xmlns") svgNamespace attrs)).
  { subst attrs'. unfold inlineRoot. rewrite inlineNode_Element.
    reflexivity. }
  assert (E1 : getAttribute (lit "xmlns") attrs'
               = if lacksAttribute (lit "xmlns") attrs then Some svgNamespace
                 else getAttribute (lit "xmlns") attrs).
  { rewrite E, getAttribute_ensure_other by (vm_compute; discriminate).
    apply getAttribute_ensure_same. }
  assert (E2 : getAttribute (lit "xmlns:xlink") attrs'
               = if lacksAttribute (lit "xmlns:xlink") attrs
                 then Some xlinkNamespace
                 else getAttribute (lit "xmlns:xlink") attrs).
  { rewrite E, getAttribute_ensure_same.
    unfold lacksAttribute.
    now rewrite getAttribute_ensure_other by (vm_compute; discriminate). }
  split; [exact E1|]. split; [exact E2|]. split; [|split].
  - unfold lacksAttribute at 1. rewrite E1.
    destruct (lacksAttribute (lit "xmlns") attrs) eqn:L; [reflexivity|].
    exact L.
  - unfold lacksAttribute at 1. rewrite E2.
    destruct (lacksAttribute (lit "xmlns:xlink") attrs) eqn:L;
      [reflexivity|]. exact L.
  - intros k H1 H2. rewrite E. now rewrite !getAttribute_ensure_other.
Qed.

(** X9 (inlineSvgImages): a document that is already self-contained
    (every element whose local name is [image], with or without a
    namespace prefix, has no reference or a data URL, and the root has
    both namespace attributes) goes through unchanged: the result is the
    serialization of the parsed document itself, whatever the answers to
    requests would have been. *)
Theorem inlineSvgImages_selfContained :
  forall (b : Browser) (svgString : str) (svg : Node),
    hasWindow b = true -> svgString <> [] ->
    parseFromString b svgString = Some svg ->
    toLowerCase (nodeName svg) = lit "svg" ->
    selfContained svg = true ->
    lacksAttribute (lit "xmlns") (attributesOf svg) = false ->
    lacksAttribute (lit "xmlns:xlink") (attributesOf svg) = false ->
    inlineRoot b svg = svg
    /\ inlineSvgImages b svgString = serializeToString b svg.
Proof.
  intros b svgString svg Hwin Hne Hparse Hsvg Hself Hx Hxl.
  assert (E : inlineRoot b svg = svg).
  { destruct svg as [name attrs kids|d]; [|reflexivity].
    unfold inlineRoot. rewrite (inlineNode_selfContained b _ [] Hself).
    cbn [attributesOf] in Hx, Hxl.
    rewrite (ensureAttribute_present _ _ attrs Hx).
    now rewrite (ensureAttribute_present _ _ attrs Hxl). }
  split; [exact E|].
  unfold inlineSvgImages. rewrite Hwin, Hparse, Hsvg, E.
  destruct svgString; [congruence|]. reflexivity.
Qed.

Lemma inlineSvgImages_selfContained_witness :
  inlineRoot eagerBrowser embeddedDocument = embeddedDocument
  /\ inlineSvgImages eagerBrowser (lit "<svg/>")
     = serializeToString eagerBrowser embeddedDocument.
Proof.
  apply (inlineSvgImages_selfContained eagerBrowser (lit "<svg/>")
           embeddedDocument).
  - reflexivity.
  - vm_compute. discriminate.
  - reflexivity.
  - reflexivity.
  - reflexivity.
  - reflexivity.
  - reflexivity.
Defined.

End InlinerTheorems.

(** ** Text column, subtitle and logo stack *)

Module LayoutMoreFacts.
Import JsString Metrics SvgUtils Properties StringFacts BlogLayout.
Import LayoutFacts LayoutProperties.

Local Open Scope Q_scope.

Lemma inject_Z_positive (z : Z) : (0 < z)%Z -> 0 < inject_Z z.
Proof. intros H. unfold Qlt. simpl. lia. Qed.


(** With two or three logos on a canvas at least as high as the two
    margins, the stack is centred. *)
Lemma stack_centred_case (ctx : option Ctx) (W H : Q) (t s p : str)
  (n : nat) :
  0 < W -> (2 <= n <= 3)%nat ->
  let g := generateSvg ctx W H (mkFields t s p n) in
  2 * logoEdgeMarginY g <= H -> spaceAbove g H n == spaceBelow g H n.
Proof.
  intros HW Hn g. subst g.
  destruct n as [|[|[|[|n]]]]; try lia.
  all: unfold spaceAbove, spaceBelow, logoY.
  all: intros.
  all: layout_cbn.
  all: cbn [Nat.sub Z.of_nat Pos.of_succ_nat Pos.succ] in *.
  all: q_solve.
Qed.

(** The subtitle ends on the bottom margin. *)
Lemma subtitle_case (ctx : option Ctx) (W H : Q) (f : Fields) :
  0 <= W ->
  let g := generateSvg ctx W H f in
  (subtitleLines g <> [] -> lastSubtitleBaseline g == H - edgeMarginY g)
  /\ (subtitleLines g = [] -> subtitleY g == H - edgeMarginY g)
  /\ subtitleY g <= H - edgeMarginY g.
Proof.
  intros HW g.
  assert (Hy : subtitleY g
               == H - edgeMarginY g
                  - Qmax 0 ((ofNat (length (subtitleLines g)) - 1)
                            * subtitleLineHeight g)).
  { subst g. unfold generateSvg.
    destruct (if (1 <? logoCount f)%nat then _ else _)
      as [[[[radius spacing] startY] baseX] staggerX].
    cbn [subtitleY edgeMarginY subtitleLines subtitleLineHeight].
    reflexivity. }
  assert (HL : 0 <= subtitleLineHeight g).
  { subst g. unfold generateSvg.
    destruct (if (1 <? logoCount f)%nat then _ else _)
      as [[[[radius spacing] startY] baseX] staggerX].
    cbn [subtitleLineHeight]. q_solve. }
  unfold lastSubtitleBaseline.
  set (k := length (subtitleLines g)) in *.
  set (LH := subtitleLineHeight g) in *.
  assert (Hk : subtitleLines g <> [] -> 0 <= ofNat k - 1).
  { intros Hne. subst k. destruct (subtitleLines g) as [|l ls];
      [congruence|]. cbn [length]. unfold ofNat.
    rewrite Nat2Z.inj_succ. unfold Z.succ. rewrite inject_Z_plus.
    assert (0 <= inject_Z (Z.of_nat (length ls))).
    { unfold Qle. simpl. lia. }
    unfold inject_Z in *. lra. }
  split; [|split].
  - intros Hne. specialize (Hk Hne).
    pose proof (Qmult_le_0_compat _ _ Hk HL) as Hp.
    rewrite Hy. rewrite (Q.max_r 0 _ Hp). ring.
  - intros He. assert (E : ofNat k == 0).
    { subst k. rewrite He. reflexivity. }
    rewrite Hy. generalize (Q.max_spec 0 ((ofNat k - 1) * LH)).
    set (m := Qmax 0 _). clearbody m. intros Hm.
    assert (Hp : (ofNat k - 1) * LH == - LH) by (rewrite E; ring).
    rewrite Hp in Hm. lra.
  - rewrite Hy. pose proof (Q.le_max_l 0 ((ofNat k - 1) * LH)) as Hm.
    set (m := Qmax 0 _) in *. clearbody m. lra.
Qed.

(** The square image is inside its clip circle, and the clip circle
    inside the white circle. *)
Lemma square_case (ctx : option Ctx) (W H : Q) (f : Fields) :
  let g := generateSvg ctx W H f in
  squareInsideClip g
  /\ (0 <= logoCircleRadius g -> logoClipRadius g <= logoCircleRadius g).
Proof.
  intros g.
  assert (Hc : logoClipRadius g == logoCircleRadius g * (9 # 10)
               /\ logoSize g == logoClipRadius g * SQRT2 * (98 # 100)).
  { subst g. unfold generateSvg.
    destruct (if (1 <? logoCount f)%nat then _ else _)
      as [[[[radius spacing] startY] baseX] staggerX].
    cbn [logoClipRadius logoCircleRadius logoSize]. split; reflexivity. }
  destruct Hc as [Hc Hs]. unfold squareInsideClip.
  set (c := logoClipRadius g) in *. set (r := logoCircleRadius g) in *.
  set (z := logoSize g) in *. clearbody c r z.
  split; [|intros Hr; lra].
  assert (E : 2 * (z / 2 * (z / 2))
              == (SQRT2 * SQRT2 * (98 # 100) * (98 # 100) / 2) * (c * c)).
  { rewrite Hs. field. }
  rewrite E.
  assert (Hsq : 0 <= c * c).
  { destruct (Qlt_le_dec c 0) as [Hn|Hp].
    - setoid_replace (c * c) with ((- c) * (- c)) by ring.
      apply Qmult_le_0_compat; lra.
    - now apply Qmult_le_0_compat. }
  setoid_replace (c * c) with (1 * (c * c)) at 2 by ring.
  apply Qmult_le_compat_r; [|exact Hsq].
  unfold Qle. vm_compute. discriminate.
Qed.

End LayoutMoreFacts.

Module LayoutTheorems.
Import JsString Metrics SvgUtils Properties StringFacts BlogLayout.
Import LayoutFacts LayoutProperties LayoutMoreFacts.

Local Open Scope Q_scope.



(** X11 (generateSvg): the subtitle is anchored at the bottom.  On a
    canvas of non-negative width the baseline of its last line is
    [height - edgeMarginY], up to the rounding slack of the canvas and
    of the height of the lines, however many lines the wrapping gives;
    with at most one line the first baseline is [height - edgeMarginY]
    itself; and the first baseline is never below that. *)
Theorem subtitle_ends_on_bottom_margin :
  forall (ctx : option Ctx) (w h : Z) (f : Fields),
    (0 <= w)%Z ->
    let g := generateSvgAt ctx w h f in
    (subtitleLines g <> [] ->
     upTo
       (roundingSlack (inject_Z w)
          (inject_Z h
           + ofNat (length (subtitleLines g)) * subtitleLineHeight g))
       (lastSubtitleBaseline g) (inject_Z h - edgeMarginY g))
    /\ ((length (subtitleLines g) <= 1)%nat ->
        subtitleY g == inject_Z h - edgeMarginY g)
    /\ subtitleY g <= inject_Z h - edgeMarginY g.
Proof.
  intros ctx w h f Hw g.
  assert (HW : 0 <= inject_Z w) by (unfold Qle; simpl; lia).
  destruct (subtitle_case ctx (inject_Z w) (inject_Z h) f HW)
    as (Hlast & Hnone & Hle).
  fold (generateSvgAt ctx w h f) in Hlast, Hnone, Hle.
  fold g in Hlast, Hnone, Hle.
  split; [|split; [|exact Hle]].
  - intros Hne. apply upTo_eq; [apply roundingSlack_nonneg|].
    now apply Hlast.
  - intros Hn. destruct (subtitleLines g) as [|l [|l' ls]] eqn:El.
    + now apply Hnone.
    + assert (Hl : lastSubtitleBaseline g == inject_Z h - edgeMarginY g)
        by (apply Hlast; discriminate).
      unfold lastSubtitleBaseline in Hl. rewrite El in Hl.
      cbn [length] in Hl. unfold ofNat in Hl. simpl in Hl.
      rewrite <- Hl. ring.
    + simpl in Hn. lia.
Qed.

Lemma subtitle_ends_on_bottom_margin_witness :
  let g := generateSvgAt None 248 139
             (mkFields []
                (lit "a subtitle long enough to wrap into three lines") []
                1) in
  (subtitleLines g <> [] ->
   upTo
     (roundingSlack (inject_Z 248)
        (inject_Z 139
         + ofNat (length (subtitleLines g)) * subtitleLineHeight g))
     (lastSubtitleBaseline g) (inject_Z 139 - edgeMarginY g))
  /\ ((length (subtitleLines g) <= 1)%nat ->
      subtitleY g == inject_Z 139 - edgeMarginY g)
  /\ subtitleY g <= inject_Z 139 - edgeMarginY g.
Proof.
  apply (subtitle_ends_on_bottom_margin None 248 139
           (mkFields []
              (lit "a subtitle long enough to wrap into three lines") []
              1)).
  lia.
Defined.

(** X12 (generateSvg): a stack of two or three logos is centred
    vertically: when the height is at least the two logo margins, the
    space above the first circle and the space below the last are the
    same, up to the rounding slack of the canvas. *)
Theorem logo_stack_centred :
  forall (ctx : option Ctx) (w h : Z) (f : Fields),
    (0 < w)%Z -> (2 <= logoCount f <= 3)%nat ->
    let g := generateSvgAt ctx w h f in
    2 * logoEdgeMarginY g <= inject_Z h ->
    stackCentred (roundingSlack (inject_Z w) (inject_Z h))
      g (inject_Z h) (logoCount f).
Proof.
  intros ctx w h [t s p n] Hw Hn g Htall. cbn [logoCount] in *.
  apply upTo_eq; [apply roundingSlack_nonneg|].
  exact (stack_centred_case ctx (inject_Z w) (inject_Z h) t s p n
           (inject_Z_positive w Hw) Hn Htall).
Qed.

Lemma logo_stack_centred_witness :
  stackCentred (roundingSlack (inject_Z 1280) (inject_Z 720))
    (generateSvgAt None 1280 720 (mkFields [] [] [] 2))
    (inject_Z 720) 2.
Proof.
  apply (logo_stack_centred None 1280 720 (mkFields [] [] [] 2)).
  - reflexivity.
  - simpl. lia.
  - vm_compute. discriminate.
Defined.

(** X13 (generateSvg): a square logo fits entirely within its circular
    clip: the corners of the image, [logoSize / 2] from the centre on
    both axes, are inside the circle of radius [logoClipRadius], on
    every canvas; and the clip circle is inside the white circle
    whenever the radius is not negative. *)
Theorem logo_square_inside_clip :
  forall (ctx : option Ctx) (w h : Z) (f : Fields),
    let g := generateSvgAt ctx w h f in
    squareInsideClip g
    /\ (0 <= logoCircleRadius g -> logoClipRadius g <= logoCircleRadius g).
Proof.
  intros ctx w h f. apply square_case.
Qed.

End LayoutTheorems.

(** ** Template cache *)

Module TemplateCacheFacts.
Import JsString StringFacts TemplateCache.

Lemma pending_removeFirst_same (k : Z) (l : list (Z * str)) :
  pending k (removeFirst k l) = pending k l - 1.
Proof.
  induction l as [|[j p] r IH]; [reflexivity|].
  cbn [removeFirst pending]. destruct (Z.eqb_spec j k) as [->|Hne].
  - simpl. lia.
  - cbn [pending]. destruct (Z.eqb_spec j k); [contradiction|].
    exact IH.
Qed.

Lemma pending_removeFirst_other (j k : Z) (l : list (Z * str)) :
  j <> k -> pending j (removeFirst k l) = pending j l.
Proof.
  intros Hne. induction l as [|[i p] r IH]; [reflexivity|].
  cbn [removeFirst pending]. destruct (Z.eqb_spec i k) as [->|Hik].
  - destruct (Z.eqb_spec k j); [congruence|]. reflexivity.
  - cbn [pending]. now rewrite IH.
Qed.

Lemma In_removeFirst (k : Z) (l : list (Z * str)) (x : Z * str) :
  In x (removeFirst k l) -> In x l.
Proof.
  induction l as [|[j p] r IH]; [auto|].
  cbn [removeFirst]. destruct (j =? k)%Z.
  - now right.
  - intros [H|H]; [now left|right; auto].
Qed.

Lemma step_consistent (pathOf : Z -> str) (c : Cache) (e : Event) :
  consistent pathOf c -> consistent pathOf (step pathOf c e).
Proof.
  intros (Hp & Hr & Hpath). destruct e as [k|k content|k]; cbn [step].
  - unfold load.
    destruct (isSome (get c k) || loading c k) eqn:E;
      [repeat split; assumption|].
    apply orb_false_iff in E as [Eg El].
    split; [|split]; cbn [inFlight loading templates].
    + intros j. cbn [pending]. unfold update. rewrite Hp.
      destruct (Z.eqb_spec k j) as [->|Hne].
      * rewrite Z.eqb_refl, El. reflexivity.
      * destruct (Z.eqb_spec j k); [congruence|]. reflexivity.
    + intros j Hj. unfold update.
      destruct (Z.eqb_spec j k) as [->|Hne].
      * change (isSome (get c k) = true) in Hj. congruence.
      * now apply Hr.
    + intros j p [H|H]; [now inversion H|now apply Hpath].
  - destruct (Nat.ltb_spec 0 (pending k (inFlight c))) as [Hin|_];
      [|repeat split; assumption].
    split; [|split]; cbn [inFlight loading templates].
    + intros j. unfold update. destruct (Z.eqb_spec j k) as [->|Hne].
      * rewrite pending_removeFirst_same, Hp.
        destruct (loading c k); reflexivity.
      * rewrite pending_removeFirst_other by exact Hne. apply Hp.
    + intros j Hj. unfold update.
      destruct (Z.eqb_spec j k) as [->|Hne]; [reflexivity|].
      apply Hr. unfold get in *. cbn [templates] in Hj.
      unfold update in Hj. destruct (Z.eqb_spec j k); [contradiction|].
      exact Hj.
    + intros j p H. apply Hpath. eapply In_removeFirst. exact H.
  - destruct (Nat.ltb_spec 0 (pending k (inFlight c))) as [Hin|_];
      [|repeat split; assumption].
    split; [|split]; cbn [inFlight loading templates].
    + intros j. unfold update. destruct (Z.eqb_spec j k) as [->|Hne].
      * rewrite pending_removeFirst_same, Hp.
        destruct (loading c k); reflexivity.
      * rewrite pending_removeFirst_other by exact Hne. apply Hp.
    + intros j Hj. unfold update.
      destruct (Z.eqb_spec j k) as [->|Hne]; [reflexivity|].
      now apply Hr.
    + intros j p H. apply Hpath. eapply In_removeFirst. exact H.
Qed.

Lemma empty_consistent (pathOf : Z -> str) : consistent pathOf empty.
Proof.
  split; [|split]; cbn.
  - reflexivity.
  - discriminate.
  - intros k p [].
Qed.

Lemma run_consistent (pathOf : Z -> str) (events : list Event) :
  forall c, consistent pathOf c -> consistent pathOf (run pathOf c events).
Proof.
  induction events as [|e events IH]; intros c Hc; [exact Hc|].
  apply IH. now apply step_consistent.
Qed.

(** A loaded template survives every event. *)
Lemma step_keeps_loaded (pathOf : Z -> str) (c : Cache) (e : Event)
  (k : Z) (content : str) :
  consistent pathOf c ->
  get c k = Some content -> get (step pathOf c e) k = Some content.
Proof.
  intros (Hp & Hr & _) Hg.
  assert (Hk : pending k (inFlight c) = 0).
  { rewrite Hp, (Hr k); [reflexivity|]. now rewrite Hg. }
  destruct e as [j|j body|j]; cbn [step].
  - unfold load. destruct (isSome (get c j) || loading c j); exact Hg.
  - destruct (Nat.ltb_spec 0 (pending j (inFlight c))) as [Hin|_];
      [|exact Hg].
    unfold get in *. cbn [templates]. unfold update.
    destruct (Z.eqb_spec k j) as [->|Hne]; [lia|exact Hg].
  - destruct (0 <? pending j (inFlight c))%nat; exact Hg.
Qed.

End TemplateCacheFacts.

Module TemplateCacheTheorems.
Import JsString StringFacts TemplateCache TemplateCacheFacts.

(** X14 (templateCache.load): whatever sequence of calls of [load] and
    of settling requests the cache goes through from its empty state, a
    guest count never has two requests in flight, it has one exactly
    while its [loading] flag is set, a guest count whose template is
    loaded has none, and every request goes to the path of its guest
    count. *)
Theorem templateCache_one_request_per_template :
  forall (pathOf : Z -> str) (events : list Event) (k : Z),
    let c := run pathOf empty events in
    pending k (inFlight c) <= 1
    /\ pending k (inFlight c) = (if loading c k then 1 else 0)
    /\ (forall content, get c k = Some content ->
          pending k (inFlight c) = 0)
    /\ (forall p, In (k, p) (inFlight c) -> p = pathOf k).
Proof.
  intros pathOf events k c.
  destruct (run_consistent pathOf events empty (empty_consistent pathOf))
    as (Hp & Hr & Hpath).
  fold c in Hp, Hr, Hpath.
  split; [|split; [|split]].
  - rewrite Hp. destruct (loading c k); lia.
  - apply Hp.
  - intros content Hg. rewrite Hp, (Hr k); [reflexivity|].
    now rewrite Hg.
  - intros p. apply Hpath.
Qed.

(** X15 (templateCache.get): once [get] returns a template for a guest
    count, it returns the same template after every later call of
    [load] and every later settling of a request: a loaded template is
    neither fetched again nor overwritten. *)
Theorem templateCache_loaded_is_stable :
  forall (pathOf : Z -> str) (before after : list Event) (k : Z)
         (content : str),
    get (run pathOf empty before) k = Some content ->
    get (run pathOf empty (before ++ after)) k = Some content.
Proof.
  intros pathOf before after k content Hg.
  unfold run in *. rewrite fold_left_app.
  pose proof (run_consistent pathOf before empty (empty_consistent pathOf))
    as Hc.
  unfold run in Hc.
  set (c := fold_left (step pathOf) before empty) in *. clearbody c.
  revert c Hc Hg. induction after as [|e after IH]; intros c Hc Hg;
    [exact Hg|].
  cbn [fold_left]. apply IH.
  - now apply step_consistent.
  - now apply step_keeps_loaded.
Qed.

Lemma templateCache_loaded_is_stable_witness :
  get (run communityStandupPath empty
         ([Load 3; Resolved 3 (lit "<svg/>")]
          ++ [Load 3; Resolved 3 (lit "other"); Failed 3]))
    3
  = Some (lit "<svg/>").
Proof.
  apply (templateCache_loaded_is_stable communityStandupPath
           [Load 3; Resolved 3 (lit "<svg/>")]
           [Load 3; Resolved 3 (lit "other"); Failed 3] 3 (lit "<svg/>")).
  reflexivity.
Defined.

End TemplateCacheTheorems.

(** ** The three title lines of the On .NET Live template *)

Module TitleFacts.
Import JsString Metrics SvgUtils Properties StringFacts WrapFacts WrapClaims.
Import OnDotNetLive EllipsisFacts LineProperties LineFacts OnDotNetLiveTitle.
Import ResolutionFacts.

Lemma trimEnd_idempotent (s : str) : trimEnd (trimEnd s) = trimEnd s.
Proof.
  induction s as [|c r IH]; [reflexivity|].
  cbn [trimEnd]. destruct (trimEnd r) as [|x r'] eqn:E.
  - destruct (isWhiteSpace c) eqn:Ec; [reflexivity|].
    cbn [trimEnd]. now rewrite Ec.
  - cbn [trimEnd] in IH |- *. now rewrite IH.
Qed.

Lemma trim_tidy (s : str) : tidy (trim s).
Proof.
  unfold trim. destruct (trimStart_spec s) as [ws [_ [_ Hstop]]].
  split; [|apply trimEnd_idempotent].
  destruct (trimStart s) as [|c r]; [exact I|].
  cbn [stopsAt] in Hstop. rewrite (trimEnd_cons_keep c r Hstop). exact Hstop.
Qed.

Lemma trim_idempotent (s : str) : trim (trim s) = trim s.
Proof.
  destruct (trim_tidy s) as [H1 H2].
  unfold trim at 1. rewrite (tidy_trimStart (trim s) (conj H1 H2)).
  exact H2.
Qed.

Lemma normalizeWhitespace_trim (s : str) :
  normalizeWhitespace (trim s) = normalizeWhitespace s.
Proof. unfold normalizeWhitespace. now rewrite trim_idempotent. Qed.

(** With a monotone width and room for the ellipsis, what
    [ellipsizeToWidth] returns for a non-empty text is within the
    budget. *)
Lemma ellipsize_fits (c : Ctx) (text : str) (maxWidth : Q) :
  (0 < maxWidth)%Q -> text <> [] ->
  monotoneWidth (c titleFont) ->
  fits (c titleFont) maxWidth [ELLIPSIS] ->
  fits (c titleFont) maxWidth (ellipsizeToWidth (Some c) text maxWidth).
Proof.
  intros HW Htext Hmono Hell.
  unfold ellipsizeToWidth, ellipsizeCounting.
  destruct text as [|x text]; [congruence|]. cbn [isEmpty orb].
  destruct (Qle_bool maxWidth 0) eqn:E0.
  { apply Qle_bool_iff in E0. exfalso. apply (Qlt_not_le _ _ HW E0). }
  destruct (Qle_bool (c titleFont (x :: text)) maxWidth) eqn:E1.
  { cbn [fst]. now apply Qle_bool_iff. }
  set (trimmed := trim (x :: text)).
  pose proof (search_correct (c titleFont) maxWidth trimmed Hmono
                (length trimmed) 0 (length trimmed) 1
                (Nat.le_0_l _) (Nat.le_refl _)) as Hs.
  destruct Hs as [_ [_ [Hfit _]]].
  { lia. }
  { exact Hell. }
  { intros j Hj. lia. }
  destruct (search _ _ _ _ _ _ _) as [[l h] n]. exact Hfit.
Qed.

Lemma join_nonempty (l : list str) :
  l <> [] -> Forall (fun w => w <> []) l -> join [SPACE] l <> [].
Proof.
  intros Hl Hall. destruct l as [|a r]; [congruence|].
  inversion Hall as [|? ? Ha _]; subst.
  destruct r; cbn [join]; [exact Ha|].
  destruct a; [congruence|discriminate].
Qed.

End TitleFacts.

Module TitleTheorems.
Import JsString Metrics SvgUtils Properties StringFacts WrapFacts WrapClaims.
Import OnDotNetLive EllipsisFacts LineProperties LineFacts OnDotNetLiveTitle.
Import ResolutionFacts.
Import TitleFacts.

(** X16 (OnDotNetLiveTemplate.generateSvg): with a measuring context
    whose width never shrinks when a text is extended and for which the
    ellipsis alone is within 924, the third title line is empty or
    measures at most 924, and each of the first two is empty or a
    wrapped line: within 924 unless it is a single word. *)
Theorem titleLines_within_width :
  forall (c : Ctx) (title : str),
    monotoneWidth (c titleFont) ->
    fits (c titleFont) titleMaxWidth [ELLIPSIS] ->
    let '(titleLine1, titleLine2, titleLine3) :=
      titleLines (Some c) title in
    (titleLine1 = [] \/ withinWidth (c titleFont) titleMaxWidth titleLine1)
    /\ (titleLine2 = []
        \/ withinWidth (c titleFont) titleMaxWidth titleLine2)
    /\ (titleLine3 = [] \/ fits (c titleFont) titleMaxWidth titleLine3).
Proof.
  intros c title Hmono Hell. unfold titleLines.
  assert (HW : (0 < titleMaxWidth)%Q) by reflexivity.
  pose proof (wrapTextToWidth_within (trim title) titleMaxWidth c titleFont
                HW) as Hall.
  fold (wrappedTitleLines (Some c) title) in Hall.
  rewrite Forall_forall in Hall.
  assert (Hnth : forall i,
             nth i (wrappedTitleLines (Some c) title) [] = []
             \/ withinWidth (c titleFont) titleMaxWidth
                  (nth i (wrappedTitleLines (Some c) title) [])).
  { intros i.
    destruct (nth_in_or_default i (wrappedTitleLines (Some c) title) [])
      as [Hin|Hd]; [right; now apply Hall|now left]. }
  split; [apply Hnth|]. split; [apply Hnth|].
  destruct (titleLine3Raw (Some c) title) as [|x raw] eqn:Eraw;
    [now left|].
  cbn [nonEmpty isEmpty negb]. right.
  apply ellipsize_fits; [exact HW|discriminate|exact Hmono|exact Hell].
Qed.

Lemma titleLines_within_width_witness :
  let '(titleLine1, titleLine2, titleLine3) :=
    titleLines (Some heuristicWidth)
      (lit "Building cloud native applications with containers and more") in
  (titleLine1 = []
   \/ withinWidth (heuristicWidth titleFont) titleMaxWidth titleLine1)
  /\ (titleLine2 = []
      \/ withinWidth (heuristicWidth titleFont) titleMaxWidth titleLine2)
  /\ (titleLine3 = []
      \/ fits (heuristicWidth titleFont) titleMaxWidth titleLine3).
Proof.
  apply (titleLines_within_width heuristicWidth
           (lit "Building cloud native applications with containers and more")).
  - apply heuristic_monotone. vm_compute. discriminate.
  - unfold fits. vm_compute. discriminate.
Defined.

(** X17 (OnDotNetLiveTemplate.generateSvg): with a measuring context,
    the first two title lines and the raw third line, joined by single
    spaces without the empty ones, are the title with its white space
    normalized: the words after the second line all go to the third, and
    only its ellipsis can drop text.  When the raw third line is within
    924 it is the third line. *)
Theorem titleLines_keep_words :
  forall (c : Ctx) (title : str),
    let '(titleLine1, titleLine2, titleLine3) :=
      titleLines (Some c) title in
    join [SPACE]
      (filter nonEmpty
         [titleLine1; titleLine2; titleLine3Raw (Some c) title])
    = normalizeWhitespace title
    /\ (fits (c titleFont) titleMaxWidth (titleLine3Raw (Some c) title) ->
        titleLine3 = titleLine3Raw (Some c) title).
Proof.
  intros c title. unfold titleLines.
  assert (HW : (0 < titleMaxWidth)%Q) by reflexivity.
  pose proof (wrapTextToWidth_within (trim title) titleMaxWidth c titleFont
                HW) as Hall.
  pose proof (wrapWidth_keepsWords (trim title) titleMaxWidth c titleFont
                HW) as Hk.
  unfold keepsWords in Hk. rewrite normalizeWhitespace_trim in Hk.
  fold (wrappedTitleLines (Some c) title) in Hall, Hk.
  split.
  - unfold titleLine3Raw.
    assert (Hne : Forall (fun w => w <> [])
                    (wrappedTitleLines (Some c) title)).
    { eapply Forall_impl; [|exact Hall]. now intros w [Hw _]. }
    destruct (wrappedTitleLines (Some c) title) as [|a [|b [|x r]]].
    + exact Hk.
    + inversion Hne as [|? ? Ha _]; subst.
      cbn [nth length Nat.ltb Nat.leb filter nonEmpty isEmpty negb].
      destruct a; [congruence|]. exact Hk.
    + inversion Hne as [|? ? Ha Hr]; subst.
      inversion Hr as [|? ? Hb _]; subst.
      cbn [nth length Nat.ltb Nat.leb filter nonEmpty isEmpty negb].
      destruct a; [congruence|]. destruct b; [congruence|]. exact Hk.
    + inversion Hne as [|? ? Ha Hr]; subst.
      inversion Hr as [|? ? Hb Hr']; subst.
      cbn [nth length Nat.ltb Nat.leb skipn].
      pose proof (join_nonempty (x :: r) ltac:(discriminate) Hr') as Hj.
      cbn [filter]. destruct a; [congruence|]. destruct b; [congruence|].
      cbn [nonEmpty isEmpty negb].
      destruct (join [SPACE] (x :: r)) as [|y j] eqn:Ej; [congruence|].
      cbn [nonEmpty isEmpty negb]. rewrite <- Hk, <- Ej. reflexivity.
  - intros Hfit. destruct (titleLine3Raw (Some c) title) as [|x raw];
      [reflexivity|]. cbn [nonEmpty isEmpty negb].
    unfold ellipsizeToWidth, ellipsizeCounting. cbn [isEmpty orb].
    apply Qle_bool_iff in Hfit.
    change (Qle_bool titleMaxWidth 0) with false. cbn iota.
    now rewrite Hfit.
Qed.

End TitleTheorems.

(** ** The search of [ellipsizeToWidth], for any measure *)

Module EllipsisMoreFacts.
Import JsString Metrics Properties StringFacts OnDotNetLive EllipsisFacts.

(** Whatever the measure answers, the interval shrinks in every round:
    with as many rounds as the interval is long, the loop is left
    through its test, inside the interval it started from. *)
Lemma search_exits (measure : str -> Q) (maxWidth : Q) (trimmed : str) :
  forall fuel low high calls,
    low <= high -> high - low <= fuel ->
    let r := search measure maxWidth trimmed fuel low high calls in
    fst (fst r) = snd (fst r) /\ low <= fst (fst r) <= high.
Proof.
  induction fuel as [|fuel IH]; intros low high calls Hlh Hfuel.
  - assert (low = high) by lia. subst. simpl. lia.
  - cbn [search]. destruct (Nat.ltb_spec low high) as [Hlt|Hge].
    + destruct (mid_bounds low high Hlt) as [[Hm1 Hm2] _].
      set (mid := (low + high + 1) / 2) in *.
      destruct (Qle_bool (measure (candidate trimmed mid)) maxWidth).
      * destruct (IH mid high (S calls)) as [H1 H2]; lia.
      * destruct (IH low (mid - 1) (S calls)) as [H1 H2]; lia.
    + assert (low = high) by lia. subst. simpl. lia.
Qed.

End EllipsisMoreFacts.

Module EllipsisTheorems.
Import JsString Metrics Properties StringFacts OnDotNetLive EllipsisFacts.
Import EllipsisMoreFacts.

(** X23 (ellipsizeToWidth): for every measuring context, text and
    width, with no assumption on the measure: the binary search leaves
    its loop through the test [low < high] within [n] rounds, [n] being
    the length of the trimmed text; the function measures at most
    [log2 n + 2] texts; and it returns either the text as it was given
    or, for some [k <= n], the first [k] code units of the trimmed text
    without white space at their end, followed by the ellipsis. *)
Theorem ellipsize_terminates_cheaply :
  forall (measureCtx : option Ctx) (text : str) (maxWidth : Q),
    (forall ctx,
        let r := search (ctx titleFont) maxWidth (trim text)
                   (length (trim text)) 0 (length (trim text)) 1 in
        fst (fst r) = snd (fst r))
    /\ snd (ellipsizeCounting measureCtx text maxWidth)
       <= Nat.log2 (length (trim text)) + 2
    /\ (ellipsizeToWidth measureCtx text maxWidth = text
        \/ exists k,
             k <= length (trim text)
             /\ ellipsizeToWidth measureCtx text maxWidth
                = candidate (trim text) k).
Proof.
  intros measureCtx text maxWidth.
  assert (Hexit : forall ctx : Ctx,
             let r := search (ctx titleFont) maxWidth (trim text)
                        (length (trim text)) 0 (length (trim text)) 1 in
             fst (fst r) = snd (fst r) /\ 0 <= fst (fst r) <= length (trim text)).
  { intros ctx. apply search_exits; lia. }
  split; [intros ctx; apply (Hexit ctx)|].
  unfold ellipsizeToWidth, ellipsizeCounting.
  destruct measureCtx as [ctx|]; [|cbn [fst snd]; split; [lia|now left]].
  destruct (isEmpty text || Qle_bool maxWidth 0);
    [cbn [fst snd]; split; [lia|now left]|].
  destruct (Qle_bool (ctx titleFont text) maxWidth);
    [cbn [fst snd]; split; [lia|now left]|].
  pose proof (search_calls (ctx titleFont) maxWidth (trim text)
                (length (trim text)) (S (Nat.log2 (length (trim text))))
                0 (length (trim text)) 1) as Hc.
  rewrite Nat.sub_0_r in Hc. specialize (Hc (length_lt_pow _)).
  destruct (Hexit ctx) as [_ Hk].
  destruct (search _ _ _ _ _ _ _) as [[low high] calls].
  cbn [fst snd] in *. split; [lia|].
  right. exists low. split; [lia|reflexivity].
Qed.

End EllipsisTheorems.

(** ** Logo selection *)

Module LogoSelectionFacts.
Import JsString StringFacts LogoSelection.

Lemma isSelected_false (value : list Logo) (logo : Logo) :
  isSelected value logo = false <-> ~ In (id logo) (map id value).
Proof.
  unfold isSelected. split.
  - intros H Hin. apply in_map_iff in Hin as (l & El & Hl).
    assert (E : existsb (fun l => eqb (id l) (id logo)) value = true).
    { apply existsb_exists. exists l. split; [exact Hl|].
      rewrite El. apply eqb_refl. }
    congruence.
  - intros H. destruct (existsb _ value) eqn:E; [|reflexivity].
    exfalso. apply H. apply existsb_exists in E as (l & Hl & El).
    apply eqb_eq in El. rewrite <- El. now apply in_map.
Qed.

Lemma removeLogo_length (value : list Logo) (logoId : str) :
  length (removeLogo value logoId) <= length value.
Proof. apply filter_length_le. Qed.

Lemma removeLogo_NoDup (value : list Logo) (logoId : str) :
  NoDup (map id value) -> NoDup (map id (removeLogo value logoId)).
Proof.
  unfold removeLogo. induction value as [|l value IH]; intros H;
    [constructor|].
  cbn [map] in H. inversion H as [|? ? Hn Hrest]; subst.
  cbn [filter]. destruct (negb (eqb (id l) logoId)); [|now apply IH].
  cbn [map]. constructor; [|now apply IH].
  intros Hin. apply Hn. apply in_map_iff in Hin as (x & Ex & Hx).
  apply filter_In in Hx as [Hx _]. rewrite <- Ex. now apply in_map.
Qed.

Lemma removeLogo_absent (value : list Logo) (logoId : str) :
  ~ In logoId (map id value) -> removeLogo value logoId = value.
Proof.
  unfold removeLogo. induction value as [|l value IH]; intros H;
    [reflexivity|].
  cbn [filter]. destruct (eqb (id l) logoId) eqn:E.
  - apply eqb_eq in E. exfalso. apply H. left. exact E.
  - cbn [negb]. f_equal. apply IH. intros Hin. apply H. now right.
Qed.

Lemma act_invariant (maxItems : nat) (value : list Logo) (a : Action) :
  length value <= maxItems -> NoDup (map id value) ->
  length (act maxItems value a) <= maxItems
  /\ NoDup (map id (act maxItems value a)).
Proof.
  intros Hlen Hnd. destruct a as [logo|logoId]; cbn [act].
  - unfold toggleLogo. destruct (isSelected value logo) eqn:Es.
    + split; [|now apply removeLogo_NoDup].
      pose proof (removeLogo_length value (id logo)). lia.
    + destruct (Nat.leb_spec maxItems (length value)) as [Hfull|Hroom];
        [now split|].
      split; [rewrite length_app; simpl; lia|].
      rewrite map_app. cbn [map].
      apply NoDup_app; [exact Hnd|repeat constructor; intros []|].
      intros x Hx [Hx'|[]]. subst x.
      now apply (proj1 (isSelected_false value logo) Es).
  - split; [|now apply removeLogo_NoDup].
    pose proof (removeLogo_length value logoId). lia.
Qed.

End LogoSelectionFacts.

Module LogoSelectionTheorems.
Import JsString StringFacts LogoSelection LogoSelectionFacts.

(** X18 (toggleLogo, removeLogo): starting from the empty selection,
    after any sequence of toggles and removals the selection holds at
    most [maxItems] logos, and no two of them have the same id. *)
Theorem logo_selection_bounded :
  forall (maxItems : nat) (actions : list Action),
    let value := fold_left (act maxItems) actions [] in
    length value <= maxItems /\ NoDup (map id value).
Proof.
  intros maxItems actions.
  assert (H : forall value,
             length value <= maxItems -> NoDup (map id value) ->
             length (fold_left (act maxItems) actions value) <= maxItems
             /\ NoDup (map id (fold_left (act maxItems) actions value))).
  { induction actions as [|a actions IH]; intros value Hlen Hnd;
      [now split|].
    cbn [fold_left].
    destruct (act_invariant maxItems value a Hlen Hnd) as [H1 H2].
    now apply IH. }
  apply H; [simpl; lia|constructor].
Qed.

(** X19 (toggleLogo): toggling a logo that is not selected, while there
    is room for it, and toggling it again gives back the selection as it
    was. *)
Theorem toggleLogo_twice :
  forall (maxItems : nat) (value : list Logo) (logo : Logo),
    isSelected value logo = false ->
    length value < maxItems ->
    toggleLogo maxItems value logo = value ++ [logo]
    /\ toggleLogo maxItems (toggleLogo maxItems value logo) logo = value.
Proof.
  intros maxItems value logo Hs Hroom.
  assert (E : toggleLogo maxItems value logo = value ++ [logo]).
  { unfold toggleLogo. rewrite Hs.
    destruct (Nat.leb_spec maxItems (length value)); [lia|reflexivity]. }
  split; [exact E|]. rewrite E. unfold toggleLogo.
  assert (Es : isSelected (value ++ [logo]) logo = true).
  { unfold isSelected. rewrite existsb_app. cbn [existsb].
    now rewrite eqb_refl, orb_true_r. }
  rewrite Es. unfold removeLogo. rewrite filter_app. cbn [filter].
  rewrite eqb_refl. cbn [negb]. rewrite app_nil_r.
  apply removeLogo_absent. now apply isSelected_false.
Qed.

Lemma toggleLogo_twice_witness :
  let dotnet := mkLogo (lit "dotnet") (lit ".NET") (lit "/logos/dotnet.svg")
                  false in
  let azure := mkLogo (lit "azure") (lit "Azure") (lit "/logos/azure.svg")
                 false in
  toggleLogo 3 [dotnet] azure = [dotnet] ++ [azure]
  /\ toggleLogo 3 (toggleLogo 3 [dotnet] azure) azure = [dotnet].
Proof.
  intros dotnet azure. apply (toggleLogo_twice 3 [dotnet] azure).
  - reflexivity.
  - simpl. lia.
Defined.

End LogoSelectionTheorems.

(** ** Image layouts of the .NET Blog template *)

Module BlogTemplateTheorems.
Import JsString JsValue SvgUtils StringFacts ResolutionFacts LayoutFacts.
Import DotNetBlogTemplate.

Local Open Scope Q_scope.



End BlogTemplateTheorems.

(** ** Lines of [wrapTopicText] *)

Module TopicLineFacts.
Import JsString SvgTemplateProcessor StringFacts LineProperties LineFacts.

Lemma fitsOrWord_nil (maxChars : Z) : fitsOrWord maxChars [].
Proof. right. intros []. Qed.

(** When the loop is left, the word in [currentLine] is acceptable, and
    so is every committed line, but for the one that the last-line
    branch adds behind at least [maxLines - 1] others. *)
Lemma topicLoop_inv (maxChars maxLines : Z) (all : list str) :
  forall words lines cur,
    Forall (fun w => ~ In SPACE w) words ->
    Forall (fitsOrWord maxChars) lines ->
    fitsOrWord maxChars cur ->
    fitsOrWord maxChars
      (snd (topicLoop maxChars maxLines all words lines cur))
    /\ exists pre rest,
         fst (topicLoop maxChars maxLines all words lines cur) = pre ++ rest
         /\ Forall (fitsOrWord maxChars) pre
         /\ (rest = []
             \/ (maxLines - 1 <= Z.of_nat (length pre))%Z).
Proof.
  induction words as [|word rest IH]; intros lines cur Hw Hl Hc.
  - cbn [topicLoop fst snd]. split; [exact Hc|].
    exists lines, []. rewrite app_nil_r. auto.
  - inversion Hw as [|? ? Hword Hrest]; subst. cbn [topicLoop].
    destruct (Z.leb_spec
                (Z.of_nat (length cur) + Z.of_nat (length word) + 1)
                maxChars) as [Hfit|Hover].
    + apply IH; [exact Hrest|exact Hl|].
      left. destruct cur as [|c cur]; cbn [nonEmpty isEmpty negb].
      * cbn [length] in Hfit. lia.
      * rewrite length_app. cbn [length] in *. lia.
    + set (lines1 := if nonEmpty cur then lines ++ [cur] else lines).
      assert (H1 : Forall (fitsOrWord maxChars) lines1).
      { subst lines1. destruct (nonEmpty cur); [|exact Hl].
        apply Forall_app. split; [exact Hl|].
        constructor; [exact Hc|constructor]. }
      destruct (Z.leb_spec (maxLines - 1) (Z.of_nat (length lines1)))
        as [Hlast|Hmore].
      * cbn [fst snd]. split; [now right|].
        eexists lines1, _. split; [reflexivity|]. split; [exact H1|].
        now right.
      * apply IH; [exact Hrest|exact H1|now right].
Qed.

Lemma nth_Forall (P : str -> Prop) (l : list str) (i : nat) :
  P [] -> Forall P l -> P (nth i l []).
Proof.
  intros H0 Hl. destruct (nth_in_or_default i l []) as [Hin|Hd].
  - rewrite Forall_forall in Hl. now apply Hl.
  - now rewrite Hd.
Qed.

End TopicLineFacts.

Module TopicLineTheorems.
Import JsString SvgTemplateProcessor StringFacts LineProperties LineFacts.
Import TopicLineFacts.

(** X21 (wrapTopicText): only the last line can overflow: every entry
    of the result before position [maxLines - 1] is at most
    [maxCharsPerLine] code units long, or is a single word (a piece of
    the topic between two spaces). *)
Theorem wrapTopicText_early_lines_within_budget :
  forall (topic : str) (maxCharsPerLine maxLines : Z) (i : nat),
    (Z.of_nat i < maxLines - 1)%Z ->
    fitsOrWord maxCharsPerLine
      (nth i (wrapTopicText topic maxCharsPerLine maxLines) []).
Proof.
  intros topic maxChars maxLines i Hi. unfold wrapTopicText.
  destruct (isEmpty topic).
  { apply nth_Forall; [apply fitsOrWord_nil|].
    repeat (constructor; [apply fitsOrWord_nil|]). constructor. }
  set (words := splitChar SPACE topic).
  destruct (topicLoop_inv maxChars maxLines words words [] []
              (splitChar_no_separator SPACE topic) (Forall_nil _)
              (fitsOrWord_nil maxChars))
    as [Hc (pre & rest & E & Hpre & Hrest)].
  destruct (topicLoop maxChars maxLines words words [] [])
    as [lines cur].
  cbn [fst snd] in *. subst lines.
  destruct Hrest as [->|Hlen].
  - rewrite app_nil_r. apply nth_Forall; [apply fitsOrWord_nil|].
    apply Forall_app. split.
    + destruct (nonEmpty cur && _); [|exact Hpre].
      apply Forall_app. split; [exact Hpre|].
      constructor; [exact Hc|constructor].
    + apply Forall_forall. intros x Hx. apply repeat_spec in Hx.
      subst x. apply fitsOrWord_nil.
  - assert (Hip : i < length pre) by lia.
    match goal with
    | |- context [nth i (?l ++ _) []] =>
        assert (El : exists t, l = pre ++ t)
    end.
    { destruct (nonEmpty cur && _).
      - exists (rest ++ [cur]). now rewrite app_assoc.
      - now exists rest. }
    destruct El as [t ->]. rewrite <- app_assoc.
    rewrite (app_nth1 pre _ [] Hip).
    rewrite Forall_forall in Hpre. apply Hpre. now apply nth_In.
Qed.

Lemma wrapTopicText_early_lines_within_budget_witness :
  fitsOrWord 18
    (nth 1 (wrapTopicText (lit "What is new in the next release of the framework") 18 3) []).
Proof.
  apply (wrapTopicText_early_lines_within_budget
           (lit "What is new in the next release of the framework") 18 3 1).
  lia.
Defined.

End TopicLineTheorems.

(** ** Dimensions returned by [parseResolution] *)

Module ResolutionTheorems.
Import JsString JsValue SvgUtils StringFacts ResolutionFacts.

(** X22 (parseResolution): whatever value it is given (a string of any
    content, a number, [null], [undefined]), [parseResolution] returns a
    width and a height that are both positive: a zero component, a
    malformed text or a component too large for a finite number gives
    1920 by 1080, never a zero or missing dimension. *)
Theorem parseResolution_dimensions_positive :
  forall v : value,
    (0 < fst (parseResolution v))%N /\ (0 < snd (parseResolution v))%N.
Proof. exact parseResolution_positive. Qed.

End ResolutionTheorems.
